(** * glitch-grid: the control server's quorum read/write algorithm

    A shallow embedding of [control.go].  The control server keeps a list of
    vault addresses and a watermark [minValue].  A GET polls every vault and
    answers with the value a majority agrees on; a POST validates the body,
    checks it against the watermark, sends it to every vault and commits the
    watermark when a majority acknowledged.

    What the Go runtime and the network decide is made explicit:
    - the replies of the vaults are given by a [Network] oracle, indexed by
      the goroutine that issues the call;
    - the order in which the goroutines of a fan-out reach their critical
      section, and the order in which [range] visits a map, are given by a
      [Runtime];
    - every HTTP call a handler issues is appended to a log, so that "no vault
      is contacted" is a statement about that log.

    Go's [int] is taken to be 64 bits wide.  The only arithmetic on it is
    [count + 1] on vote counts and [numVaults / 2 + 1], both bounded by the
    length of the vault slice, so no operation of the program can wrap. *)

From Stdlib Require Import Ascii String ZArith Sorted.
From stdpp Require Import base numbers list strings pretty gmap fin_sets.

Local Open Scope Z_scope.

(** ** The parts of the Go standard library the program calls *)

Module strconv.

(** The two kinds of [*strconv.NumError]. *)
Inductive error := ErrSyntax | ErrRange.

Global Instance error_eq_dec : EqDecision error.
Proof. solve_decision. Defined.

Definition byte_of (c : ascii) : Z := Z.of_N (Ascii.N_of_ascii c).

Definition is_digit (c : ascii) : bool :=
  (48 <=? byte_of c) && (byte_of c <=? 57).

Definition maxUint64 : Z := 2 ^ 64 - 1.

(** The digit loop of [ParseUint(s, 10, 64)]: it stops at the first byte
    that is not a digit (syntax error) or at the first overflow (range
    error, with the largest value). *)
Fixpoint ParseUint_loop (s : string) (n : Z) : Z * option error :=
  match s with
  | EmptyString => (n, None)
  | String c s' =>
      if is_digit c then
        let d := byte_of c - 48 in
        if n >=? maxUint64 `quot` 10 + 1 then (maxUint64, Some ErrRange)
        else
          let n1 := n * 10 + d in
          if n1 >? maxUint64 then (maxUint64, Some ErrRange)
          else ParseUint_loop s' n1
      else (0, Some ErrSyntax)
  end.

Definition ParseUint (s : string) : Z * option error :=
  match s with
  | EmptyString => (0, Some ErrSyntax)
  | _ => ParseUint_loop s 0
  end.

(** [ParseInt(s, 10, 0)] with [IntSize = 64]. *)
Definition ParseInt (s : string) : Z * option error :=
  match s with
  | EmptyString => (0, Some ErrSyntax)
  | String c rest =>
      let neg := bool_decide (c = "-"%char) in
      let digits :=
        if bool_decide (c = "+"%char) || neg then rest else s in
      match ParseUint digits with
      | (_, Some ErrSyntax) => (0, Some ErrSyntax)
      | (un, _) =>
          let cutoff := 2 ^ 63 in
          if negb neg && (un >=? cutoff) then (cutoff - 1, Some ErrRange)
          else if neg && (un >? cutoff) then (- cutoff, Some ErrRange)
          else (if neg then - un else un, None)
      end
  end.

(** [Atoi(s)] is [ParseInt(s, 10, 0)] converted to [int]; its fast path for
    short inputs computes the same result. *)
Definition Atoi (s : string) : Z * option error := ParseInt s.

End strconv.

Module strings.

(** [strings.Split(s, ",")]: the substrings between the commas; never an
    empty slice. *)
Fixpoint Split (s : string) : list string :=
  match s with
  | EmptyString => [EmptyString]
  | String c s' =>
      if bool_decide (c = ","%char) then EmptyString :: Split s'
      else
        match Split s' with
        | w :: ws => String c w :: ws
        | [] => [String c EmptyString]
        end
  end.

End strings.

Module http.

Definition StatusOK : Z := 200.
Definition StatusBadRequest : Z := 400.
Definition StatusNotFound : Z := 404.
Definition StatusInternalServerError : Z := 500.

Definition MethodGet : string := "GET".
Definition MethodPost : string := "POST".

(** What the control server writes to its [ResponseWriter]. *)
Record Response := { StatusCode : Z; Body : string }.

(** An incoming request.  [ReqBody] is [None] when reading the body
    fails. *)
Record Request := { Path : string; Method : string; ReqBody : option string }.

(** The result of [http.Get] on a vault: an error (which includes the
    timeout), or a response whose body may fail to be read. *)
Inductive GetReply :=
| GetError
| GetResponse (status : Z) (body : option string).

(** The result of [http.Post] on a vault. *)
Inductive PostReply :=
| PostError
| PostResponse (status : Z).

(** A call the control server issued to a vault. *)
Inductive Call :=
| CallGet (url : string)
| CallPost (url : string) (body : string).

Definition NotFound : Response :=
  {| StatusCode := StatusNotFound;
     Body := "404 page not found" +:+ String "010"%char EmptyString |}.

End http.

(** The vaults as the control server sees them: the reply to the call that
    goroutine [i] of a fan-out issues to [url]. *)
Record Network := {
  http_Get : nat → string → http.GetReply;
  http_Post : nat → string → string → http.PostReply;
}.

(** The choices of the Go runtime during one request. *)
Record Runtime := {
  (** the order in which the goroutines of a fan-out take the mutex *)
  go_order : list (nat * string) → list (nat * string);
  (** the order in which [range] visits the entries of a map *)
  range_order : list (Z * Z) → list (Z * Z);
}.

(** A runtime runs every goroutine once and visits every entry once. *)
Class RuntimeOk (rt : Runtime) := {
  go_order_perm : ∀ l, go_order rt l ≡ₚ l;
  range_order_perm : ∀ l, range_order rt l ≡ₚ l;
}.

(** ** The control server *)

(** [mux] and [lock] carry no data of the algorithm: requests are handled one
    at a time in this model. *)
Record ControlServer := {
  Vaults : list string;
  minValue : Z;
}.

Definition NewControlServer (vaults : string) : ControlServer :=
  {| Vaults := strings.Split vaults; minValue := 0 |}.

(** The result of handling a request: the server afterwards, the response,
    and the calls issued to vaults, oldest first. *)
Record Outcome := {
  server : ControlServer;
  response : http.Response;
  calls : list http.Call;
}.

Definition hasMajority (s : ControlServer) (count : Z) : bool :=
  let numVaults := Z.of_nat (length (Vaults s)) in
  let numForMajority := numVaults `quot` 2 + 1 in
  count >=? numForMajority.

(** [fmt.Sprintf("http://%s/", vault)] *)
Definition vault_url (vault : string) : string := "http://" +:+ vault +:+ "/".

(** The goroutines of a fan-out: one per entry of [s.Vaults]. *)
Definition goroutines (s : ControlServer) : list (nat * string) :=
  imap (λ i vault, (i, vault)) (Vaults s).

(** *** Reading *)

(** State shared by the goroutines of a read fan-out: the [counts] map, from
    a value to the number of vaults that reported it, and the call log. *)
Definition ReadState : Type := gmap Z Z * list http.Call.

(** One goroutine of the read fan-out.  The update of [counts] is the
    critical section between [m.Lock()] and [m.Unlock()]. *)
Definition getValueFromVault (net : Network) (st : ReadState)
    (g : nat * string) : ReadState :=
  let '(counts, log) := st in
  let url := vault_url g.2 in
  let log := log ++ [http.CallGet url] in
  match http_Get net g.1 url with
  | http.GetError => (counts, log)
  | http.GetResponse status body =>
      if bool_decide (status ≠ http.StatusOK) then (counts, log)
      else
        match body with
        | None => (counts, log)
        | Some body =>
            match strconv.Atoi body with
            | (_, Some _) => (counts, log)
            | (v, None) =>
                let count := default 0 (counts !! v) in
                (<[v := count + 1]> counts, log)
            end
        end
  end.

(** The loop that starts the goroutines, up to [wg.Wait()]. *)
Definition getFanOut (rt : Runtime) (net : Network) (s : ControlServer)
    : ReadState :=
  foldl (getValueFromVault net) (∅, []) (go_order rt (goroutines s)).

(** The loop over [counts]: [inl v] when it returns the value [v] from inside
    the loop, [inr maxVal] when it runs to its end. *)
Fixpoint rangeCounts (s : ControlServer) (entries : list (Z * Z)) (maxVal : Z)
    : Z + Z :=
  match entries with
  | [] => inr maxVal
  | (v, c) :: entries =>
      let maxVal := if c >? maxVal then c else maxVal in
      if hasMajority s c then inl v else rangeCounts s entries maxVal
  end.

Definition getValueFromVaults (rt : Runtime) (net : Network)
    (s : ControlServer) : Z * list http.Call :=
  let '(counts, log) := getFanOut rt net s in
  if bool_decide (size counts = 0%nat) then (-1, log)
  else
    match rangeCounts s (range_order rt (map_to_list counts)) 0 with
    | inl v => (v, log)
    | inr _ => (-1, log)
    end.

Definition get (rt : Runtime) (net : Network) (s : ControlServer) : Outcome :=
  let '(result, log) := getValueFromVaults rt net s in
  let resp :=
    if result >=? 0 then
      {| http.StatusCode := http.StatusOK; http.Body := pretty result |}
    else
      {| http.StatusCode := http.StatusInternalServerError;
         http.Body := "-1" |} in
  {| server := s; response := resp; calls := log |}.

(** *** Writing *)

(** State shared by the goroutines of a write fan-out: the keys of the [resp]
    map (every value stored in it is [true]) and the call log. *)
Definition WriteState : Type := gset string * list http.Call.

(** One goroutine of the write fan-out. *)
Definition postValueToVault (net : Network) (body : string) (st : WriteState)
    (g : nat * string) : WriteState :=
  let '(resp, log) := st in
  let url := vault_url g.2 in
  let log := log ++ [http.CallPost url body] in
  match http_Post net g.1 url body with
  | http.PostResponse status =>
      if bool_decide (status = http.StatusOK) then ({[url]} ∪ resp, log)
      else (resp, log)
  | http.PostError => (resp, log)
  end.

Definition postValueToVaults (rt : Runtime) (net : Network)
    (s : ControlServer) (body : string) : WriteState :=
  foldl (postValueToVault net body) (∅, []) (go_order rt (goroutines s)).

Definition setMinValue (s : ControlServer) (n : Z) : ControlServer :=
  {| Vaults := Vaults s; minValue := n |}.

(** [w.WriteHeader(http.StatusBadRequest); w.Write(msg); return]: the server
    is left as it was and no vault has been called. *)
Definition badRequest (s : ControlServer) (msg : string) : Outcome :=
  {| server := s;
     response := {| http.StatusCode := http.StatusBadRequest;
                    http.Body := msg |};
     calls := [] |}.

Definition post (rt : Runtime) (net : Network) (s : ControlServer)
    (r : http.Request) : Outcome :=
  match http.ReqBody r with
  | None => badRequest s "Invalid or missing POST body"
  | Some body =>
      let '(n, e) := strconv.Atoi body in
      if (n <? 0) || bool_decide (e ≠ None) then
        badRequest s "Invalid or missing POST body"
      else if n <? minValue s then
        badRequest s ("Client would make value decrease from "
                      +:+ pretty (minValue s) +:+ " to " +:+ pretty n)
      else
        let '(resp, log) := postValueToVaults rt net s body in
        let msg := "Sent updates to " +:+ pretty (size resp) +:+ "/"
                   +:+ pretty (length (Vaults s)) +:+ " vaults" in
        if hasMajority s (Z.of_nat (size resp)) then
          {| server := setMinValue s n;
             response := {| http.StatusCode := http.StatusOK;
                            http.Body := msg |};
             calls := log |}
        else
          {| server := s;
             response := {| http.StatusCode := http.StatusInternalServerError;
                            http.Body := msg |};
             calls := log |}
  end.

(** *** Dispatch *)

Definition handle (rt : Runtime) (net : Network) (s : ControlServer)
    (r : http.Request) : Outcome :=
  if bool_decide (http.Path r ≠ "/") then
    {| server := s; response := http.NotFound; calls := [] |}
  else if bool_decide (http.Method r = http.MethodGet) then get rt net s
  else if bool_decide (http.Method r = http.MethodPost) then post rt net s r
  else {| server := s; response := http.NotFound; calls := [] |}.

(** One request together with what the runtime and the vaults do while it is
    handled. *)
Record Event := {
  ev_runtime : Runtime;
  ev_network : Network;
  ev_request : http.Request;
}.

Definition step (s : ControlServer) (e : Event) : ControlServer :=
  server (handle (ev_runtime e) (ev_network e) s (ev_request e)).

(** The servers reached while handling the requests one after another,
    starting from [s]. *)
Fixpoint run (s : ControlServer) (es : list Event) : list ControlServer :=
  match es with
  | [] => [s]
  | e :: es => s :: run (step s e) es
  end.

(** ** Notions used to state the properties *)

(** The value a goroutine of the read fan-out adds a vote for, if any. *)
Definition vote (net : Network) (g : nat * string) : option Z :=
  match http_Get net g.1 (vault_url g.2) with
  | http.GetResponse status (Some body) =>
      if bool_decide (status = http.StatusOK) then
        match strconv.Atoi body with
        | (v, None) => Some v
        | _ => None
        end
      else None
  | _ => None
  end.

(** The number of goroutines among [gs] that vote for [v]. *)
Definition votes (net : Network) (gs : list (nat * string)) (v : Z) : nat :=
  length (filter (λ g, vote net g = Some v) gs).

(** Whether the vault answers the POST of goroutine [g] with a 200. *)
Definition acked (net : Network) (body : string) (g : nat * string) : bool :=
  match http_Post net g.1 (vault_url g.2) body with
  | http.PostResponse status => bool_decide (status = http.StatusOK)
  | http.PostError => false
  end.

(** [strings.Join(l, ",")], the inverse of [strings.Split(s, ",")]. *)
Fixpoint join_commas (l : list string) : string :=
  match l with
  | [] => EmptyString
  | w :: ws =>
      match ws with
      | [] => w
      | _ => w +:+ "," +:+ join_commas ws
      end
  end.

Fixpoint count_commas (s : string) : nat :=
  match s with
  | EmptyString => 0%nat
  | String c s' =>
      ((if bool_decide (c = ","%char) then 1 else 0) + count_commas s')%nat
  end.

Fixpoint all_digits (s : string) : bool :=
  match s with
  | EmptyString => true
  | String c s' => strconv.is_digit c && all_digits s'
  end.

(** The syntax of a decimal integer: an optional sign and at least one
    digit. *)
Definition is_decimal (s : string) : bool :=
  match s with
  | EmptyString => false
  | String c rest =>
      let digits :=
        if bool_decide (c = "+"%char) || bool_decide (c = "-"%char)
        then rest else s in
      match digits with
      | EmptyString => false
      | _ => all_digits digits
      end
  end.

(** The sum of the counts of a tally. *)
Definition total_votes (counts : gmap Z Z) : Z :=
  map_fold (λ _ c acc, c + acc) 0 counts.

(** Whether goroutine [g] of a read fan-out adds a vote, for any value. *)
Definition answered (net : Network) (g : nat * string) : bool :=
  bool_decide (is_Some (vote net g)).

(** The request body of a call to a vault, if it has one. *)
Definition call_body (c : http.Call) : option string :=
  match c with
  | http.CallGet _ => None
  | http.CallPost _ body => Some body
  end.

(** ** Sample runs *)

(** A runtime that lets the last goroutine in first and visits maps
    backwards. *)
Definition rt_reverse : Runtime :=
  {| go_order := reverse; range_order := reverse |}.

(** A runtime that keeps the order of the program text. *)
Definition rt_program_order : Runtime :=
  {| go_order := id; range_order := id |}.

(** A network in which the call of goroutine [i] gets the [i]-th reply of the
    list, and fails when the list is too short. *)
Definition net_of (gets : list http.GetReply) (posts : list http.PostReply)
    : Network :=
  {| http_Get := λ i _, default http.GetError (gets !! i);
     http_Post := λ i _ _, default http.PostError (posts !! i) |}.

Definition ok_body (body : string) : http.GetReply :=
  http.GetResponse http.StatusOK (Some body).

Definition POST (body : string) : http.Request :=
  {| http.Path := "/"; http.Method := http.MethodPost;
     http.ReqBody := Some body |}.

(** ** Properties *)

(** *** Arithmetic of the majority threshold *)

(** Go's [/] truncates; on a slice length that is the floor. *)
Lemma hasMajority_threshold s count :
  hasMajority s count = true ↔
  Z.of_nat (length (Vaults s)) `div` 2 + 1 ≤ count.
Proof.
  unfold hasMajority.
  rewrite Z.quot_div_nonneg by lia.
  rewrite Z.geb_leb. apply Z.leb_le.
Qed.

Lemma hasMajority_false s count :
  hasMajority s count = false ↔
  count < Z.of_nat (length (Vaults s)) `div` 2 + 1.
Proof.
  rewrite <- not_true_iff_false, hasMajority_threshold. lia.
Qed.

(** Two counts that both reach the threshold add up to more than the number
    of vaults. *)
Lemma two_majorities s c1 c2 :
  hasMajority s c1 = true → hasMajority s c2 = true →
  Z.of_nat (length (Vaults s)) < c1 + c2.
Proof.
  rewrite !hasMajority_threshold.
  intros H1 H2.
  assert (Hmod : Z.of_nat (length (Vaults s))
                 < 2 * (Z.of_nat (length (Vaults s)) `div` 2 + 1))
    by (apply Z.mul_succ_div_gt; lia).
  lia.
Qed.

(** *** Decimal integers *)

Section decimal.
Import strconv.

Lemma maxUint64_eq : maxUint64 = 18446744073709551615.
Proof. reflexivity. Qed.

Lemma ParseUint_loop_digit c s n :
  is_digit c = true → 0 ≤ n → n * 10 + (byte_of c - 48) ≤ maxUint64 →
  ParseUint_loop (String c s) n
  = ParseUint_loop s (n * 10 + (byte_of c - 48)).
Proof.
  intros Hc Hn Hle. cbn [ParseUint_loop]. rewrite Hc.
  unfold is_digit in Hc.
  apply andb_true_iff in Hc as [H1%Z.leb_le H2%Z.leb_le].
  rewrite maxUint64_eq in *.
  change (18446744073709551615 `quot` 10 + 1) with 1844674407370955162.
  destruct (Z.geb_spec n 1844674407370955162); [lia|].
  cbv zeta.
  destruct (Z.gtb_spec (n * 10 + (byte_of c - 48)) 18446744073709551615);
    [lia|done].
Qed.

Lemma pretty_N_char_digit (x : N) :
  (x < 10)%N →
  is_digit (pretty_N_char x) = true
  ∧ byte_of (pretty_N_char x) - 48 = Z.of_N x.
Proof.
  intros Hx.
  destruct x as [|p]; [done|].
  do 4 (destruct p as [p|p|]; try lia; try done).
Qed.

Lemma ParseUint_loop_pretty (x : N) s :
  Z.of_N x ≤ maxUint64 →
  ParseUint_loop (pretty_N_go x s) 0 = ParseUint_loop s (Z.of_N x).
Proof.
  revert s. induction (N.lt_wf_0 x) as [x _ IH]; intros s Hx.
  destruct (decide (x = 0%N)) as [->|Hne].
  { by rewrite pretty_N_go_0. }
  rewrite pretty_N_go_step by lia.
  assert (x `div` 10 < x)%N as Hlt by (apply N.div_lt; lia).
  pose proof (N.div_mod x 10 ltac:(lia)) as Hdm.
  destruct (pretty_N_char_digit (x `mod` 10)) as [Hd Hv].
  { apply N.mod_lt. lia. }
  revert Hlt Hdm Hd Hv.
  generalize (x `div` 10)%N (x `mod` 10)%N. intros q r Hlt Hdm Hd Hv.
  rewrite IH by (done || lia).
  rewrite ParseUint_loop_digit; [|done|lia|rewrite Hv; lia].
  rewrite Hv. f_equal. lia.
Qed.

Lemma pretty_N_go_head (x : N) s :
  (0 < x)%N →
  ∃ c rest, pretty_N_go x s = String c rest ∧ is_digit c = true.
Proof.
  revert s. induction (N.lt_wf_0 x) as [x _ IH]; intros s Hx.
  rewrite pretty_N_go_step by done.
  destruct (decide (x `div` 10 = 0)%N) as [->|Hne].
  - rewrite pretty_N_go_0. eexists _, _. split; [done|].
    apply pretty_N_char_digit, N.mod_lt. lia.
  - apply N.neq_0_lt_0 in Hne. apply IH; [apply N.div_lt; lia|done].
Qed.

Lemma ParseUint_pretty (x : N) :
  (0 < x)%N → Z.of_N x ≤ maxUint64 →
  ParseUint (pretty_N_go x "") = (Z.of_N x, None).
Proof.
  intros Hpos Hx. unfold ParseUint.
  destruct (pretty_N_go_head x "" Hpos) as (c & rest & Heq & _).
  rewrite Heq, <- Heq. by rewrite ParseUint_loop_pretty.
Qed.

Lemma is_digit_not_sign c :
  is_digit c = true → c ≠ "+"%char ∧ c ≠ "-"%char.
Proof. intros Hc. split; intros ->; done. Qed.

(** Printing with [%d] and parsing with [Atoi] are inverse on [int]. *)
Lemma Atoi_pretty (v : Z) :
  - 2 ^ 63 ≤ v < 2 ^ 63 → Atoi (pretty v) = (v, None).
Proof.
  intros Hv. unfold Atoi, pretty, pretty_Z.
  destruct v as [|p|p].
  - done.
  - unfold pretty, pretty_positive, pretty, pretty_N.
    rewrite decide_False by done.
    destruct (pretty_N_go_head (N.pos p) "" ltac:(lia))
      as (c & rest & Heq & [Hplus Hminus]%is_digit_not_sign).
    unfold ParseInt. rewrite Heq.
    rewrite !bool_decide_eq_false_2 by done. cbn [orb negb andb].
    rewrite <- Heq, ParseUint_pretty by (rewrite ?maxUint64_eq; lia).
    change (2 ^ 63) with 9223372036854775808 in *.
    destruct (Z.geb_spec (Z.of_N (N.pos p)) 9223372036854775808); [lia|done].
  - unfold pretty, pretty_positive, pretty, pretty_N.
    rewrite decide_False by done.
    change (ParseInt (String "-"%char (pretty_N_go (N.pos p) ""))
            = (Z.neg p, None)).
    unfold ParseInt.
    rewrite bool_decide_eq_false_2 by done.
    rewrite bool_decide_eq_true_2 by done. cbn [orb negb andb].
    rewrite ParseUint_pretty by (rewrite ?maxUint64_eq; lia).
    change (2 ^ 63) with 9223372036854775808 in *.
    destruct (Z.gtb_spec (Z.of_N (N.pos p)) 9223372036854775808); [lia|done].
Qed.

Lemma ParseUint_loop_nonneg s n : 0 ≤ n → 0 ≤ (ParseUint_loop s n).1.
Proof.
  revert n. induction s as [|c s IH]; intros n Hn; [done|].
  cbn [ParseUint_loop]. destruct (is_digit c) eqn:Hc; [|done].
  destruct (_ >=? _); [done|]. cbv zeta.
  destruct (_ >? _); [done|]. apply IH.
  unfold is_digit in Hc. apply andb_true_iff in Hc as [H1%Z.leb_le _]. lia.
Qed.

Lemma ParseUint_nonneg s : 0 ≤ (ParseUint s).1.
Proof. destruct s; [done|]. by apply ParseUint_loop_nonneg. Qed.

(** A value that [Atoi] returns without an error fits in [int]. *)
Lemma Atoi_range s v : Atoi s = (v, None) → - 2 ^ 63 ≤ v < 2 ^ 63.
Proof.
  unfold Atoi, ParseInt. destruct s as [|c rest]; [done|].
  match goal with
  | |- context [ParseUint ?d] =>
      pose proof (ParseUint_nonneg d) as Hpos;
      destruct (ParseUint d) as [un e]
  end.
  simpl in Hpos. change (2 ^ 63) with 9223372036854775808.
  destruct (bool_decide (c = "-"%char)); cbn [negb andb];
    destruct (Z.geb_spec un 9223372036854775808);
    destruct (Z.gtb_spec un 9223372036854775808);
    destruct e as [[]|]; try done; intros [= <-]; lia.
Qed.

End decimal.

Lemma Split_nonempty vaults : (1 ≤ length (strings.Split vaults))%nat.
Proof.
  induction vaults as [|c vaults IH]; simpl; [lia|].
  case_bool_decide; simpl; [lia|].
  destruct (strings.Split vaults); simpl in *; lia.
Qed.

Lemma goroutines_length s : length (goroutines s) = length (Vaults s).
Proof. unfold goroutines. by rewrite length_imap. Qed.

Lemma goroutines_lookup s i g :
  goroutines s !! i = Some g ↔ g.1 = i ∧ Vaults s !! i = Some g.2.
Proof.
  unfold goroutines. rewrite list_lookup_imap.
  destruct g as [j w]; simpl.
  destruct (Vaults s !! i) as [vault|]; simpl; split.
  - by intros [= -> ->].
  - by intros [-> [= ->]].
  - done.
  - by intros [_ ?].
Qed.

(** *** The vote of one vault *)

Lemma vote_Some net g v :
  vote net g = Some v ↔
  ∃ body, http_Get net g.1 (vault_url g.2)
          = http.GetResponse http.StatusOK (Some body)
          ∧ strconv.Atoi body = (v, None).
Proof.
  unfold vote. split.
  - destruct (http_Get _ _ _) as [|status [body|]]; try done.
    case_bool_decide; [|done]. subst.
    destruct (strconv.Atoi body) as [w [e|]] eqn:He; [done|].
    intros [= ->]. eauto.
  - intros (body & -> & ->). by rewrite bool_decide_eq_true_2.
Qed.

Lemma getValueFromVault_vote net counts log g :
  getValueFromVault net (counts, log) g =
  (match vote net g with
   | Some v => <[v := default 0 (counts !! v) + 1]> counts
   | None => counts
   end, log ++ [http.CallGet (vault_url g.2)]).
Proof.
  unfold getValueFromVault, vote.
  destruct (http_Get _ _ _) as [|status [body|]]; try done.
  - repeat case_bool_decide; try done.
    by destruct (strconv.Atoi body) as [w [e|]].
  - by repeat case_bool_decide.
Qed.

Lemma votes_nil net v : votes net [] v = 0%nat.
Proof. done. Qed.

Lemma votes_cons net g gs v :
  votes net (g :: gs) v =
  ((if decide (vote net g = Some v) then 1 else 0) + votes net gs v)%nat.
Proof. unfold votes. rewrite filter_cons. by case_decide. Qed.

Lemma votes_perm net gs gs' v : gs ≡ₚ gs' → votes net gs v = votes net gs' v.
Proof. intros Hp. unfold votes. by rewrite Hp. Qed.

Lemma votes_none net gs v :
  (∀ g, g ∈ gs → vote net g ≠ Some v) → votes net gs v = 0%nat.
Proof.
  induction gs as [|g gs IH]; intros Hno; [done|].
  rewrite votes_cons, decide_False by (apply Hno; left).
  apply IH. intros g' Hg'. apply Hno. by right.
Qed.

Lemma votes_pos net gs v :
  votes net gs v ≠ 0%nat → ∃ g, g ∈ gs ∧ vote net g = Some v.
Proof.
  induction gs as [|g gs IH]; [done|].
  rewrite votes_cons. case_decide as Hg.
  - intros _. exists g. split; [left|done].
  - intros (g' & Hin & Hv)%IH. exists g'. split; [by right|done].
Qed.

Lemma votes_all net gs v :
  (∀ g, g ∈ gs → vote net g = Some v) → votes net gs v = length gs.
Proof.
  induction gs as [|g gs IH]; intros Hall; [done|].
  rewrite votes_cons, decide_True by (apply Hall; left).
  simpl. f_equal. apply IH. intros g' Hg'. apply Hall. by right.
Qed.

(** Distinct values share the goroutines between them. *)
Lemma votes_disjoint net gs v1 v2 :
  v1 ≠ v2 → (votes net gs v1 + votes net gs v2 ≤ length gs)%nat.
Proof.
  intros Hne. induction gs as [|g gs IH]; [done|].
  rewrite !votes_cons. simpl.
  repeat case_decide; try lia. congruence.
Qed.

Lemma votes_le_length net gs v : (votes net gs v ≤ length gs)%nat.
Proof. unfold votes. apply length_filter. Qed.

(** *** The tally of a read fan-out *)

Lemma fold_get_lookup net gs counts log v :
  (foldl (getValueFromVault net) (counts, log) gs).1 !! v =
  if decide (votes net gs v = 0%nat) then counts !! v
  else Some (default 0 (counts !! v) + Z.of_nat (votes net gs v)).
Proof.
  revert counts log. induction gs as [|g gs IH]; intros counts log; [done|].
  cbn [foldl]. rewrite getValueFromVault_vote, IH, votes_cons.
  destruct (vote net g) as [w|] eqn:Hw; [destruct (decide (w = v)) as [->|]|];
    rewrite ?lookup_insert_eq, ?lookup_insert_ne by done; simpl;
    repeat case_decide; simplify_eq; try lia; try done; f_equal; lia.
Qed.

Lemma fold_get_log net gs counts log :
  (foldl (getValueFromVault net) (counts, log) gs).2 =
  log ++ ((λ g, http.CallGet (vault_url g.2)) <$> gs).
Proof.
  revert counts log. induction gs as [|g gs IH]; intros counts log.
  - simpl. by rewrite app_nil_r.
  - cbn [foldl]. rewrite getValueFromVault_vote, IH.
    by rewrite <- app_assoc.
Qed.

(** The tally after the join: a value is a key exactly when some vault voted
    for it, and its count is the number of those vaults. *)
Lemma getFanOut_lookup rt `{!RuntimeOk rt} net s v :
  (getFanOut rt net s).1 !! v =
  if decide (votes net (goroutines s) v = 0%nat) then None
  else Some (Z.of_nat (votes net (goroutines s) v)).
Proof.
  unfold getFanOut. rewrite fold_get_lookup.
  rewrite (votes_perm _ _ _ _ (go_order_perm (goroutines s))).
  rewrite lookup_empty. done.
Qed.

(** The tally does not depend on the order of the goroutines. *)
Lemma getFanOut_order rt rt' `{!RuntimeOk rt} `{!RuntimeOk rt'} net s :
  (getFanOut rt net s).1 = (getFanOut rt' net s).1.
Proof. apply map_eq. intros v. by rewrite !getFanOut_lookup. Qed.

(** Every key of the tally was returned by [Atoi], so it fits in [int]. *)
Lemma getFanOut_key_range rt `{!RuntimeOk rt} net s v c :
  (getFanOut rt net s).1 !! v = Some c → - 2 ^ 63 ≤ v < 2 ^ 63.
Proof.
  rewrite (getFanOut_lookup rt net s v). case_decide as Hv; [done|].
  intros _. apply votes_pos in Hv as (g & _ & Hg).
  apply vote_Some in Hg as (body & _ & Hbody).
  by eapply Atoi_range.
Qed.

(** The same for any list of goroutines, started from the empty map. *)
Lemma tally_lookup net gs v :
  (foldl (getValueFromVault net) (∅, []) gs).1 !! v =
  if decide (votes net gs v = 0%nat) then None
  else Some (Z.of_nat (votes net gs v)).
Proof. by rewrite fold_get_lookup, lookup_empty. Qed.

Lemma tally_lookup_Some net gs v c :
  (foldl (getValueFromVault net) (∅, []) gs).1 !! v = Some c →
  c = Z.of_nat (votes net gs v) ∧ 1 ≤ c.
Proof. rewrite tally_lookup. case_decide; [done|]. intros [= <-]. lia. Qed.

(** At most one key of a tally over at most [len(s.Vaults)] goroutines has a
    majority. *)
Lemma tally_majority_unique net s gs v1 v2 c1 c2 :
  (length gs ≤ length (Vaults s))%nat →
  (foldl (getValueFromVault net) (∅, []) gs).1 !! v1 = Some c1 →
  (foldl (getValueFromVault net) (∅, []) gs).1 !! v2 = Some c2 →
  hasMajority s c1 = true → hasMajority s c2 = true →
  v1 = v2.
Proof.
  intros Hlen [-> _]%tally_lookup_Some [-> _]%tally_lookup_Some Hm1 Hm2.
  destruct (decide (v1 = v2)) as [|Hne]; [done|exfalso].
  pose proof (votes_disjoint net gs v1 v2 Hne) as Hsum.
  pose proof (two_majorities s _ _ Hm1 Hm2) as Hgt.
  lia.
Qed.

Lemma getFanOut_majority_unique rt `{!RuntimeOk rt} net s v1 v2 c1 c2 :
  (getFanOut rt net s).1 !! v1 = Some c1 →
  (getFanOut rt net s).1 !! v2 = Some c2 →
  hasMajority s c1 = true → hasMajority s c2 = true →
  v1 = v2.
Proof.
  apply tally_majority_unique.
  rewrite (go_order_perm (goroutines s)), goroutines_length. done.
Qed.

(** A count is at least 1 and at most the number of vaults, far from the
    limits of [int]. *)
Lemma getFanOut_count_bound rt `{!RuntimeOk rt} net s v c :
  (getFanOut rt net s).1 !! v = Some c →
  1 ≤ c ≤ Z.of_nat (length (Vaults s)).
Proof.
  rewrite (getFanOut_lookup rt net s v). case_decide; [done|].
  intros [= <-]. pose proof (votes_le_length net (goroutines s) v) as Hle.
  rewrite goroutines_length in Hle. lia.
Qed.

(** *** The scan of the tally *)

Lemma rangeCounts_inl s entries maxVal v :
  rangeCounts s entries maxVal = inl v →
  ∃ c, (v, c) ∈ entries ∧ hasMajority s c = true.
Proof.
  revert maxVal. induction entries as [|[w c] entries IH]; intros maxVal.
  - done.
  - simpl. destruct (hasMajority s c) eqn:Hc.
    + intros [= ->]. exists c. split; [left|done].
    + intros (c' & Hin & Hc')%IH. exists c'. split; [by right|done].
Qed.

Lemma rangeCounts_inr s entries maxVal maxVal' :
  rangeCounts s entries maxVal = inr maxVal' →
  ∀ v c, (v, c) ∈ entries → hasMajority s c = false.
Proof.
  revert maxVal. induction entries as [|[w c] entries IH]; intros maxVal.
  - intros _ v c Hin. by apply elem_of_nil in Hin.
  - simpl. destruct (hasMajority s c) eqn:Hc; [done|].
    intros Hr v c' [[= -> ->]|Hin]%elem_of_cons; [done|].
    by eapply IH.
Qed.

(** When the scan finds no majority, [maxVal] is the largest count seen, or
    the initial value if that is larger. *)
Lemma rangeCounts_maxVal s entries maxVal maxVal' :
  rangeCounts s entries maxVal = inr maxVal' →
  maxVal' = foldl Z.max maxVal (entries.*2).
Proof.
  revert maxVal. induction entries as [|[w c] entries IH]; intros maxVal.
  - by intros [= ->].
  - simpl. destruct (hasMajority s c); [done|].
    intros ->%IH. f_equal.
    destruct (Z.gtb_spec c maxVal); lia.
Qed.

Lemma range_order_elem rt `{!RuntimeOk rt} (counts : gmap Z Z) v c :
  (v, c) ∈ range_order rt (map_to_list counts) ↔ counts !! v = Some c.
Proof. by rewrite (range_order_perm (map_to_list counts)), elem_of_map_to_list. Qed.

(** *** The result of a read *)

Lemma getValueFromVaults_log rt net s :
  (getValueFromVaults rt net s).2 = (getFanOut rt net s).2.
Proof.
  unfold getValueFromVaults.
  destruct (getFanOut rt net s) as [counts log]; simpl.
  case_bool_decide; [done|].
  by destruct (rangeCounts _ _ _).
Qed.

(** A value with a majority is what the read returns. *)
Lemma getValueFromVaults_majority rt `{!RuntimeOk rt} net s v c :
  (getFanOut rt net s).1 !! v = Some c → hasMajority s c = true →
  (getValueFromVaults rt net s).1 = v.
Proof.
  intros Hv Hc.
  pose proof (getFanOut_majority_unique rt net s) as Huniq.
  unfold getValueFromVaults.
  destruct (getFanOut rt net s) as [counts log]; simpl in *.
  case_bool_decide as Hsize.
  { apply map_size_empty_iff in Hsize. by rewrite Hsize in Hv. }
  destruct (rangeCounts _ _ _) as [w|maxVal] eqn:Hscan; simpl.
  - apply rangeCounts_inl in Hscan as (c' & Hin & Hc').
    apply range_order_elem in Hin; [|done]. by eapply Huniq.
  - rewrite (rangeCounts_inr _ _ _ _ Hscan v c) in Hc; [done|].
    by apply range_order_elem.
Qed.

(** Without a majority the read returns [-1]. *)
Lemma getValueFromVaults_no_majority rt `{!RuntimeOk rt} net s :
  (∀ v c, (getFanOut rt net s).1 !! v = Some c → hasMajority s c = false) →
  (getValueFromVaults rt net s).1 = -1.
Proof.
  intros Hnone. unfold getValueFromVaults.
  destruct (getFanOut rt net s) as [counts log]; simpl in *.
  case_bool_decide; [done|].
  destruct (rangeCounts _ _ _) as [w|maxVal] eqn:Hscan; [|done].
  apply rangeCounts_inl in Hscan as (c & Hin & Hc).
  apply range_order_elem in Hin; [|done].
  by rewrite (Hnone w c Hin) in Hc.
Qed.

(** The two lemmas above, with the threshold written out. *)
Lemma getValueFromVaults_reached rt `{!RuntimeOk rt} net s v c :
  (getFanOut rt net s).1 !! v = Some c →
  Z.of_nat (length (Vaults s)) `div` 2 + 1 ≤ c →
  (getValueFromVaults rt net s).1 = v.
Proof.
  intros Hv Hc. eapply getValueFromVaults_majority; [done..|].
  by apply hasMajority_threshold.
Qed.

Lemma getValueFromVaults_not_reached rt `{!RuntimeOk rt} net s :
  (¬ ∃ v c, (getFanOut rt net s).1 !! v = Some c
            ∧ Z.of_nat (length (Vaults s)) `div` 2 + 1 ≤ c) →
  (getValueFromVaults rt net s).1 = -1.
Proof.
  intros Hnone. apply getValueFromVaults_no_majority; [done|].
  intros v c Hv. apply hasMajority_false.
  destruct (decide (c < Z.of_nat (length (Vaults s)) `div` 2 + 1)); [done|].
  destruct Hnone. exists v, c. split; [done|lia].
Qed.

(** A read returns either a key of the tally with a majority, or [-1]. *)
Lemma getValueFromVaults_cases rt `{!RuntimeOk rt} net s :
  (∃ c, (getFanOut rt net s).1 !! (getValueFromVaults rt net s).1 = Some c
        ∧ hasMajority s c = true)
  ∨ ((∀ v c, (getFanOut rt net s).1 !! v = Some c → hasMajority s c = false)
     ∧ (getValueFromVaults rt net s).1 = -1).
Proof.
  destruct (decide (Exists (λ e, hasMajority s e.2 = true)
                      (map_to_list (getFanOut rt net s).1))) as [Hex|Hno].
  - left. apply Exists_exists in Hex as ([v c] & Hin%elem_of_map_to_list & Hc).
    simpl in Hc. rewrite (getValueFromVaults_majority rt net s v c); eauto.
  - right. rewrite <- Forall_Exists_neg, Forall_forall in Hno.
    assert (∀ v c, (getFanOut rt net s).1 !! v = Some c →
                   hasMajority s c = false) as Hnone.
    { intros v c Hin%elem_of_map_to_list. apply Hno in Hin. simpl in Hin.
      by destruct (hasMajority s c). }
    split; [done|]. by apply getValueFromVaults_no_majority.
Qed.

(** *** The acknowledgements of a write fan-out *)

Lemma postValueToVault_acked net body resp log g :
  postValueToVault net body (resp, log) g =
  (if acked net body g then {[vault_url g.2]} ∪ resp else resp,
   log ++ [http.CallPost (vault_url g.2) body]).
Proof.
  unfold postValueToVault, acked.
  destruct (http_Post _ _ _ _) as [|status]; [done|].
  by case_bool_decide.
Qed.

Lemma fold_post_elem net body gs resp log url :
  url ∈ (foldl (postValueToVault net body) (resp, log) gs).1 ↔
  url ∈ resp ∨ ∃ g, g ∈ gs ∧ acked net body g = true ∧ url = vault_url g.2.
Proof.
  revert resp log. induction gs as [|g gs IH]; intros resp log.
  - simpl. split; [by left|]. intros [?|(g & Hg & _)]; [done|].
    by apply elem_of_nil in Hg.
  - cbn [foldl]. rewrite postValueToVault_acked, IH. split.
    + intros [Hin|(g' & Hin & Hack & ->)].
      * destruct (acked net body g) eqn:Hg; [|by left].
        apply elem_of_union in Hin as [->%elem_of_singleton|?]; [|by left].
        right. exists g. split; [left|done].
      * right. exists g'. split; [by right|done].
    + intros [Hin|(g' & [->|Hin]%elem_of_cons & Hack & ->)].
      * left. destruct (acked net body g); [|done].
        apply elem_of_union. by right.
      * left. rewrite Hack. apply elem_of_union. left.
        by apply elem_of_singleton.
      * right. eauto.
Qed.

Lemma fold_post_log net body gs resp log :
  (foldl (postValueToVault net body) (resp, log) gs).2 =
  log ++ ((λ g, http.CallPost (vault_url g.2) body) <$> gs).
Proof.
  revert resp log. induction gs as [|g gs IH]; intros resp log.
  - simpl. by rewrite app_nil_r.
  - cbn [foldl]. rewrite postValueToVault_acked, IH.
    by rewrite <- app_assoc.
Qed.

(** The keys of [resp] after the join: the URLs of the list entries whose
    vault answered 200. *)
Lemma postValueToVaults_elem rt `{!RuntimeOk rt} net s body url :
  url ∈ (postValueToVaults rt net s body).1 ↔
  ∃ i vault, Vaults s !! i = Some vault ∧ url = vault_url vault
             ∧ acked net body (i, vault) = true.
Proof.
  unfold postValueToVaults. rewrite fold_post_elem. split.
  - intros [Hin|(g & Hin & Hack & ->)]; [by apply not_elem_of_empty in Hin|].
    rewrite (go_order_perm (goroutines s)) in Hin.
    apply list_elem_of_lookup in Hin as [i Hi].
    apply goroutines_lookup in Hi as [<- Hi].
    exists g.1, g.2. by destruct g.
  - intros (i & vault & Hi & -> & Hack). right. exists (i, vault).
    split; [|done]. rewrite (go_order_perm (goroutines s)).
    apply list_elem_of_lookup. exists i. by apply goroutines_lookup.
Qed.

Lemma size_list_to_set_le (l : list string) :
  (size (list_to_set l : gset string) ≤ length l)%nat.
Proof.
  induction l as [|x l IH].
  - by rewrite list_to_set_nil, size_empty.
  - rewrite list_to_set_cons, size_union_alt, size_singleton.
    assert (size (list_to_set l ∖ {[x]} : gset string)
            ≤ size (list_to_set l : gset string))%nat as Hsub.
    { apply subseteq_size, subseteq_difference_l. done. }
    simpl. lia.
Qed.

(** However many entries of the list name the same vault, they add one key. *)
Lemma postValueToVaults_size rt `{!RuntimeOk rt} net s body :
  (size (postValueToVaults rt net s body).1
   ≤ length (remove_dups (Vaults s)))%nat.
Proof.
  transitivity
    (size (list_to_set (vault_url <$> remove_dups (Vaults s)) : gset string)).
  - apply subseteq_size. intros url Hin.
    apply postValueToVaults_elem in Hin as (i & vault & Hi & -> & _); [|done].
    apply elem_of_list_to_set, list_elem_of_fmap. exists vault.
    split; [done|]. apply elem_of_remove_dups, list_elem_of_lookup. eauto.
  - etransitivity; [apply size_list_to_set_le|]. by rewrite length_fmap.
Qed.

Lemma remove_dups_length_le (l : list string) :
  (length (remove_dups l) ≤ length l)%nat.
Proof.
  induction l as [|x l IH]; simpl; [done|]. case_decide; simpl; lia.
Qed.

Lemma postValueToVaults_log rt net s body :
  (postValueToVaults rt net s body).2 =
  (λ g, http.CallPost (vault_url g.2) body) <$> go_order rt (goroutines s).
Proof. unfold postValueToVaults. by rewrite fold_post_log. Qed.

(** *** The paths through [post] *)

Lemma post_no_body rt net s r :
  http.ReqBody r = None →
  post rt net s r = badRequest s "Invalid or missing POST body".
Proof. intros Hr. unfold post. by rewrite Hr. Qed.

Lemma post_invalid rt net s r body :
  http.ReqBody r = Some body →
  (strconv.Atoi body).2 ≠ None ∨ (strconv.Atoi body).1 < 0 →
  post rt net s r = badRequest s "Invalid or missing POST body".
Proof.
  intros Hr Hbad. unfold post. rewrite Hr.
  destruct (strconv.Atoi body) as [n e]; simpl in Hbad.
  destruct (Z.ltb_spec n 0); [done|].
  case_bool_decide; [done|]. destruct Hbad; [done|lia].
Qed.

Lemma post_regression rt net s r body n :
  http.ReqBody r = Some body → strconv.Atoi body = (n, None) →
  0 ≤ n → n < minValue s →
  post rt net s r =
  badRequest s ("Client would make value decrease from "
                +:+ pretty (minValue s) +:+ " to " +:+ pretty n).
Proof.
  intros Hr Hn Hpos Hlt. unfold post. rewrite Hr, Hn.
  destruct (Z.ltb_spec n 0); [lia|].
  rewrite bool_decide_eq_false_2 by (by intros ?). simpl.
  destruct (Z.ltb_spec n (minValue s)); [done|lia].
Qed.

Lemma post_fanout rt net s r body n :
  http.ReqBody r = Some body → strconv.Atoi body = (n, None) →
  0 ≤ n → minValue s ≤ n →
  let st := postValueToVaults rt net s body in
  let ok := hasMajority s (Z.of_nat (size st.1)) in
  post rt net s r =
  {| server := if ok then setMinValue s n else s;
     response :=
       {| http.StatusCode :=
            if ok then http.StatusOK else http.StatusInternalServerError;
          http.Body := "Sent updates to " +:+ pretty (size st.1) +:+ "/"
                       +:+ pretty (length (Vaults s)) +:+ " vaults" |};
     calls := st.2 |}.
Proof.
  intros Hr Hn Hpos Hge. simpl. unfold post. rewrite Hr, Hn.
  destruct (Z.ltb_spec n 0); [lia|].
  rewrite bool_decide_eq_false_2 by (by intros ?). simpl.
  destruct (Z.ltb_spec n (minValue s)); [lia|].
  destruct (postValueToVaults rt net s body) as [resp log]; simpl.
  by destruct (hasMajority s _).
Qed.

(** Every request takes one of the three paths. *)
Lemma post_cases rt net s r :
  (∃ msg, post rt net s r = badRequest s msg)
  ∨ ∃ body n, http.ReqBody r = Some body ∧ strconv.Atoi body = (n, None)
              ∧ 0 ≤ n ∧ minValue s ≤ n.
Proof.
  destruct (http.ReqBody r) as [body|] eqn:Hr.
  - destruct (strconv.Atoi body) as [n [e|]] eqn:Hn.
    + left. eexists. apply (post_invalid _ _ _ _ body); [done|].
      rewrite Hn. by left.
    + destruct (decide (n < 0)).
      { left. eexists. apply (post_invalid _ _ _ _ body); [done|].
        rewrite Hn. by right. }
      destruct (decide (n < minValue s)).
      { left. eexists. apply (post_regression _ _ _ _ body n); [done..|lia|done]. }
      right. exists body, n. repeat split; [done|lia|lia].
  - left. eexists. by apply post_no_body.
Qed.

Lemma post_minValue_le rt net s r :
  minValue s ≤ minValue (server (post rt net s r)).
Proof.
  destruct (post_cases rt net s r) as [[msg ->]|(body & n & Hr & Hn & ? & ?)].
  - done.
  - rewrite (post_fanout _ _ _ _ body n) by done. simpl.
    by destruct (hasMajority s _).
Qed.

Lemma post_Vaults rt net s r :
  Vaults (server (post rt net s r)) = Vaults s.
Proof.
  destruct (post_cases rt net s r) as [[msg ->]|(body & n & Hr & Hn & ? & ?)].
  - done.
  - rewrite (post_fanout _ _ _ _ body n) by done. simpl.
    by destruct (hasMajority s _).
Qed.

Lemma get_server rt net s : server (get rt net s) = s.
Proof. unfold get. by destruct (getValueFromVaults rt net s). Qed.

Lemma step_minValue_le s e : minValue s ≤ minValue (step s e).
Proof.
  unfold step, handle. repeat case_bool_decide; simpl; try done.
  - by rewrite get_server.
  - apply post_minValue_le.
Qed.

Lemma run_minValue_ge s es :
  Forall (λ s', minValue s ≤ minValue s') (run s es).
Proof.
  revert s. induction es as [|e es IH]; intros s; simpl.
  - by constructor.
  - constructor; [done|].
    eapply Forall_impl; [apply IH|]. simpl. intros s' Hs'.
    pose proof (step_minValue_le s e). lia.
Qed.

Lemma run_minValue_sorted s es :
  StronglySorted Z.le (minValue <$> run s es).
Proof.
  revert s. induction es as [|e es IH]; intros s; simpl.
  - repeat constructor.
  - constructor; [apply IH|].
    apply Forall_fmap. eapply Forall_impl; [apply run_minValue_ge|].
    simpl. intros s' Hs'. pose proof (step_minValue_le s e). lia.
Qed.

(** *** Sample runtime *)

Global Instance rt_reverse_ok : RuntimeOk rt_reverse.
Proof. split; intros l; simpl; apply reverse_Permutation. Qed.

Global Instance rt_program_order_ok : RuntimeOk rt_program_order.
Proof. by split. Qed.

(** ** The quorum read *)

(** C1: for every number N of configured vaults the majority threshold is
    floor(N/2)+1; the read returns a value of the tally whose count reaches
    the threshold exactly when the tally has such a value, it returns that
    value, and otherwise it returns the no-quorum outcome -1. *)
Theorem read_returns_majority_value rt `{!RuntimeOk rt} net s :
  let N := Z.of_nat (length (Vaults s)) in
  let counts := (getFanOut rt net s).1 in
  let result := (getValueFromVaults rt net s).1 in
  (∀ count, hasMajority s count = true ↔ N `div` 2 + 1 ≤ count)
  ∧ ((∃ c, counts !! result = Some c ∧ N `div` 2 + 1 ≤ c)
     ↔ (∃ v c, counts !! v = Some c ∧ N `div` 2 + 1 ≤ c))
  ∧ (∀ v c, counts !! v = Some c → N `div` 2 + 1 ≤ c → result = v)
  ∧ ((¬ ∃ v c, counts !! v = Some c ∧ N `div` 2 + 1 ≤ c) → result = -1).
Proof.
  intros N counts result. split; [apply hasMajority_threshold|].
  split; [|split].
  - split; [intros [c Hc]; eauto|].
    intros (v & c & Hv & Hc). subst result.
    rewrite (getValueFromVaults_reached rt net s v c Hv Hc). eauto.
  - intros v c. by apply getValueFromVaults_reached.
  - by apply getValueFromVaults_not_reached.
Qed.

(** Three vaults, two of which report 7: the read returns 7. *)
Lemma read_returns_majority_value_witness :
  (getValueFromVaults rt_reverse
     (net_of [ok_body "7"; ok_body "9"; ok_body "7"] [])
     (NewControlServer "a:1,b:2,c:3")).1 = 7.
Proof.
  apply (proj1 (proj2 (proj2
    (read_returns_majority_value rt_reverse
       (net_of [ok_body "7"; ok_body "9"; ok_body "7"] [])
       (NewControlServer "a:1,b:2,c:3")))) 7 2).
  - vm_compute. reflexivity.
  - vm_compute. discriminate.
Defined.

(** C7: in a tally built from at most N answers, one vote per answer, at most
    one value has a count of floor(N/2)+1 or more; so the value a read
    returns does not depend on the order in which the goroutines ran or in
    which the tally is scanned. *)
Theorem majority_value_unique net s :
  let N := Z.of_nat (length (Vaults s)) in
  (∀ gs v1 v2 c1 c2,
     let counts := (foldl (getValueFromVault net) (∅, []) gs).1 in
     (length gs ≤ length (Vaults s))%nat →
     counts !! v1 = Some c1 → counts !! v2 = Some c2 →
     N `div` 2 + 1 ≤ c1 → N `div` 2 + 1 ≤ c2 →
     v1 = v2)
  ∧ (∀ rt rt', RuntimeOk rt → RuntimeOk rt' →
       (getValueFromVaults rt net s).1 = (getValueFromVaults rt' net s).1).
Proof.
  intros N. split.
  - intros gs v1 v2 c1 c2 counts Hlen Hv1 Hv2 Hc1%hasMajority_threshold
      Hc2%hasMajority_threshold.
    by eapply tally_majority_unique.
  - intros rt rt' Hrt Hrt'.
    destruct (getValueFromVaults_cases rt net s)
      as [(c & Hres & Hc)|[Hnone ->]].
    + symmetry. eapply getValueFromVaults_majority; [done| |done].
      by rewrite (getFanOut_order rt' rt).
    + symmetry. apply getValueFromVaults_no_majority; [done|].
      intros v c. rewrite (getFanOut_order rt' rt). apply Hnone.
Qed.

(** Three answers 7, 9, 7 for three vaults: 7 has two votes, and the read
    returns the same under both sample runtimes. *)
Lemma majority_value_unique_witness :
  let net := net_of [ok_body "7"; ok_body "9"; ok_body "7"] [] in
  let s := NewControlServer "a:1,b:2,c:3" in
  7 = 7
  ∧ (getValueFromVaults rt_reverse net s).1
    = (getValueFromVaults rt_program_order net s).1.
Proof.
  split.
  - apply (proj1 (majority_value_unique
                    (net_of [ok_body "7"; ok_body "9"; ok_body "7"] [])
                    (NewControlServer "a:1,b:2,c:3"))
             [(0%nat, "a:1"); (1%nat, "b:2"); (2%nat, "c:3")] 7 7 2 2).
    + simpl. lia.
    + vm_compute. reflexivity.
    + vm_compute. reflexivity.
    + vm_compute. discriminate.
    + vm_compute. discriminate.
  - apply (proj2 (majority_value_unique
                    (net_of [ok_body "7"; ok_body "9"; ok_body "7"] [])
                    (NewControlServer "a:1,b:2,c:3"))
             rt_reverse rt_program_order).
    + exact rt_reverse_ok.
    + exact rt_program_order_ok.
Defined.

(** When no vault can be reached the tally stays empty. *)
Lemma getFanOut_unreachable rt `{!RuntimeOk rt} net s :
  (∀ i vault, Vaults s !! i = Some vault →
              http_Get net i (vault_url vault) = http.GetError) →
  (getFanOut rt net s).1 = ∅.
Proof.
  intros Herr. apply map_eq. intros v.
  rewrite (getFanOut_lookup rt net s v), lookup_empty.
  case_decide as Hv; [done|]. destruct Hv.
  apply votes_none. intros g Hg.
  apply list_elem_of_lookup in Hg as [i Hi].
  apply goroutines_lookup in Hi as [<- Hi].
  unfold vote. by rewrite (Herr _ _ Hi).
Qed.

Lemma get_calls rt net s :
  calls (get rt net s) =
  (λ g, http.CallGet (vault_url g.2)) <$> go_order rt (goroutines s).
Proof.
  unfold get.
  destruct (getValueFromVaults rt net s) as [result log] eqn:Hres.
  change (calls _) with (result, log).2. rewrite <- Hres.
  rewrite getValueFromVaults_log. unfold getFanOut.
  by rewrite fold_get_log.
Qed.

Lemma handle_get rt net s r :
  http.Path r = "/" → http.Method r = http.MethodGet →
  handle rt net s r = get rt net s.
Proof.
  intros Hp Hm. unfold handle.
  rewrite bool_decide_eq_false_2 by (by intros ?).
  by rewrite bool_decide_eq_true_2.
Qed.

Lemma handle_post rt net s r :
  http.Path r = "/" → http.Method r = http.MethodPost →
  handle rt net s r = post rt net s r.
Proof.
  intros Hp Hm. unfold handle.
  rewrite bool_decide_eq_false_2 by (by intros ?).
  rewrite bool_decide_eq_false_2 by (by rewrite Hm).
  by rewrite bool_decide_eq_true_2.
Qed.

Lemma get_response rt net s :
  response (get rt net s) =
  let result := (getValueFromVaults rt net s).1 in
  if result >=? 0 then
    {| http.StatusCode := http.StatusOK; http.Body := pretty result |}
  else
    {| http.StatusCode := http.StatusInternalServerError; http.Body := "-1" |}.
Proof. unfold get. by destruct (getValueFromVaults rt net s). Qed.

(** C5 (as amended): a GET on the root path answers 200 with the decimal
    form of the value (a body that parses back to that value) when a quorum
    is reached on a value that is not negative, and 500 with body "-1" when
    no value reaches a quorum, in particular when no vault can be reached. *)
Theorem get_answers_consensus rt `{!RuntimeOk rt} net s r :
  http.Path r = "/" → http.Method r = http.MethodGet →
  let N := Z.of_nat (length (Vaults s)) in
  let counts := (getFanOut rt net s).1 in
  let resp := response (handle rt net s r) in
  let failure :=
    {| http.StatusCode := http.StatusInternalServerError;
       http.Body := "-1" |} in
  (∀ v c, counts !! v = Some c → N `div` 2 + 1 ≤ c → 0 ≤ v →
     resp = {| http.StatusCode := http.StatusOK; http.Body := pretty v |}
     ∧ strconv.Atoi (http.Body resp) = (v, None))
  ∧ ((¬ ∃ v c, counts !! v = Some c ∧ N `div` 2 + 1 ≤ c) → resp = failure)
  ∧ ((∀ i vault, Vaults s !! i = Some vault →
                 http_Get net i (vault_url vault) = http.GetError) →
     resp = failure).
Proof.
  intros Hpath Hmeth N counts resp failure. subst resp.
  rewrite handle_get by done.
  assert ((¬ ∃ v c, counts !! v = Some c ∧ N `div` 2 + 1 ≤ c) →
          response (get rt net s) = failure) as Hfail.
  { intros Hno. rewrite get_response. simpl.
    by rewrite (getValueFromVaults_not_reached rt net s Hno). }
  split; [|split; [done|]].
  - intros v c Hv Hc Hpos. rewrite get_response. simpl.
    rewrite (getValueFromVaults_reached rt net s v c Hv Hc).
    destruct (Z.geb_spec v 0); [|lia]. split; [done|]. simpl.
    apply Atoi_pretty. by eapply getFanOut_key_range.
  - intros Herr. apply Hfail. intros (v & c & Hv & _).
    subst counts. rewrite getFanOut_unreachable in Hv by done.
    by rewrite lookup_empty in Hv.
Qed.

Lemma get_answers_consensus_witness :
  let resp :=
    response (handle rt_reverse
                (net_of [ok_body "7"; ok_body "9"; ok_body "7"] [])
                (NewControlServer "a:1,b:2,c:3")
                {| http.Path := "/"; http.Method := "GET";
                   http.ReqBody := Some "" |}) in
  resp = {| http.StatusCode := 200; http.Body := "7" |}
  ∧ strconv.Atoi (http.Body resp) = (7, None).
Proof.
  apply (proj1 (get_answers_consensus rt_reverse
                  (net_of [ok_body "7"; ok_body "9"; ok_body "7"] [])
                  (NewControlServer "a:1,b:2,c:3")
                  {| http.Path := "/"; http.Method := "GET";
                     http.ReqBody := Some "" |} eq_refl eq_refl) 7 2).
  - vm_compute. reflexivity.
  - vm_compute. discriminate.
  - lia.
Defined.

(** C5 (as stated) fails: a single vault that reports -5 gives that value a
    quorum, and the GET answers 500 with body "-1". *)
Lemma get_negative_consensus_counterexample :
  ¬ (∀ rt net s r v c, RuntimeOk rt →
       http.Path r = "/" → http.Method r = http.MethodGet →
       (getFanOut rt net s).1 !! v = Some c →
       Z.of_nat (length (Vaults s)) `div` 2 + 1 ≤ c →
       response (handle rt net s r)
       = {| http.StatusCode := http.StatusOK; http.Body := pretty v |}).
Proof.
  intros Hclaim.
  assert (response (handle rt_reverse (net_of [ok_body "-5"] [])
                      (NewControlServer "a:1")
                      {| http.Path := "/"; http.Method := "GET";
                         http.ReqBody := Some "" |})
          = {| http.StatusCode := http.StatusOK; http.Body := pretty (-5) |})
    as Hresp.
  { apply (Hclaim _ _ _ _ (-5) 1 rt_reverse_ok).
    - reflexivity.
    - reflexivity.
    - vm_compute. reflexivity.
    - vm_compute. discriminate. }
  vm_compute in Hresp. discriminate Hresp.
Qed.

(** ** The vault client *)

(** C6 (as amended): the answer of a vault is counted exactly when the call
    succeeds with status 200 and a body that parses as an integer, of either
    sign; in every other case the tally is left as it was.  Either way the
    vault is called once. *)
Theorem vault_answer_counted net counts log g :
  let reply := http_Get net g.1 (vault_url g.2) in
  let st := getValueFromVault net (counts, log) g in
  (∀ body v, reply = http.GetResponse http.StatusOK (Some body) →
             strconv.Atoi body = (v, None) →
             st.1 = <[v := default 0 (counts !! v) + 1]> counts
             ∧ st.1 ≠ counts)
  ∧ ((¬ ∃ body v, reply = http.GetResponse http.StatusOK (Some body)
                  ∧ strconv.Atoi body = (v, None)) →
     st.1 = counts)
  ∧ st.2 = log ++ [http.CallGet (vault_url g.2)].
Proof.
  intros reply st. subst st. rewrite getValueFromVault_vote. simpl.
  split; [|split; [|done]].
  - intros body v Hreply Hv.
    assert (vote net g = Some v) as -> by (apply vote_Some; eauto).
    split; [done|]. intros Heq.
    assert (<[v:=default 0 (counts !! v) + 1]> counts !! v = counts !! v)
      as Hlook by (by rewrite Heq).
    rewrite lookup_insert_eq in Hlook.
    destruct (counts !! v) as [c|]; simplify_eq/=. lia.
  - intros Hno. destruct (vote net g) as [v|] eqn:Hv; [|done].
    apply vote_Some in Hv as (body & Hreply & Hbody).
    destruct Hno. eauto.
Qed.

Lemma vault_answer_counted_witness :
  let counts : gmap Z Z := {[7 := 2]} in
  let st := getValueFromVault (net_of [ok_body "7"] []) (counts, [])
              (0%nat, "a:1") in
  st.1 = <[7 := default 0 (counts !! 7) + 1]> counts ∧ st.1 ≠ counts.
Proof.
  apply (proj1 (vault_answer_counted (net_of [ok_body "7"] [])
                  {[7 := 2]} [] (0%nat, "a:1")) "7" 7).
  - reflexivity.
  - vm_compute. reflexivity.
Defined.

(** C6 (as stated) fails in both directions: an answer with status 201 and
    body "5" is not counted, and an answer with status 200 and body "-3" is
    counted. *)
Lemma vault_answer_counted_counterexample :
  let counted net :=
    (getValueFromVault net (∅, []) (0%nat, "a:1")).1 ≠ ∅ in
  let claimed net :=
    ∃ status body v,
      http_Get net 0%nat (vault_url "a:1")
      = http.GetResponse status (Some body)
      ∧ 200 ≤ status < 300 ∧ strconv.Atoi body = (v, None) ∧ 0 ≤ v in
  ¬ (∀ net, claimed net → counted net) ∧ ¬ (∀ net, counted net → claimed net).
Proof.
  intros counted claimed. split; intros Hclaim.
  - apply (Hclaim (net_of [http.GetResponse 201 (Some "5")] [])); [|done].
    exists 201, "5", 5. by repeat split.
  - destruct (Hclaim (net_of [ok_body "-3"] []))
      as (status & body & v & Hreply & _ & Hv & Hpos).
    + vm_compute. discriminate.
    + injection Hreply as <- <-. vm_compute in Hv.
      injection Hv as <-. lia.
Qed.

(** ** The monotonic guard *)

(** C2: the watermark is 0 at startup, no request lowers it, and over any
    sequence of requests handled one after another the watermarks observed
    are non-decreasing. *)
Theorem minValue_non_decreasing vaults es :
  minValue (NewControlServer vaults) = 0
  ∧ (∀ s e, minValue s ≤ minValue (step s e))
  ∧ StronglySorted Z.le (minValue <$> run (NewControlServer vaults) es).
Proof.
  split; [done|]. split; [apply step_minValue_le|apply run_minValue_sorted].
Qed.

(** C3: a write whose value is below the watermark is answered 400, calls no
    vault and leaves the server as it was. *)
Theorem post_below_minValue_rejected rt net s r body n :
  http.ReqBody r = Some body → strconv.Atoi body = (n, None) →
  n < minValue s →
  let o := post rt net s r in
  http.StatusCode (response o) = http.StatusBadRequest
  ∧ calls o = [] ∧ server o = s.
Proof.
  intros Hr Hn Hlt o. subst o.
  destruct (decide (n < 0)).
  - rewrite (post_invalid _ _ _ _ body); [done..|]. rewrite Hn. by right.
  - by rewrite (post_regression _ _ _ _ body n) by (done || lia).
Qed.

Lemma post_below_minValue_rejected_witness :
  let s := {| Vaults := ["a:1"; "b:2"; "c:3"]; minValue := 12 |} in
  let o := post rt_reverse
             (net_of [] [http.PostResponse 200; http.PostResponse 200;
                         http.PostResponse 200]) s (POST "10") in
  http.StatusCode (response o) = http.StatusBadRequest
  ∧ calls o = [] ∧ server o = s.
Proof.
  apply (post_below_minValue_rejected rt_reverse _ _ _ "10" 10).
  - reflexivity.
  - vm_compute. reflexivity.
  - simpl. lia.
Defined.

(** C4: a write that passed both checks but gathered fewer than floor(N/2)+1
    acknowledgements is answered 500 and leaves the watermark as it was; and
    whenever a write changes the watermark, its acknowledgements reached the
    threshold. *)
Theorem post_without_quorum_keeps_minValue rt net s r :
  let N := Z.of_nat (length (Vaults s)) in
  let acks body := Z.of_nat (size (postValueToVaults rt net s body).1) in
  let o := post rt net s r in
  (∀ body n, http.ReqBody r = Some body → strconv.Atoi body = (n, None) →
             0 ≤ n → minValue s ≤ n → acks body < N `div` 2 + 1 →
             server o = s
             ∧ http.StatusCode (response o) = http.StatusInternalServerError)
  ∧ (minValue (server o) ≠ minValue s →
     ∃ body, http.ReqBody r = Some body ∧ N `div` 2 + 1 ≤ acks body
             ∧ http.StatusCode (response o) = http.StatusOK).
Proof.
  intros N acks o. split.
  - intros body n Hr Hn Hpos Hge Hacks%hasMajority_false. subst o.
    rewrite (post_fanout _ _ _ _ body n) by done. simpl.
    unfold acks in Hacks. by rewrite Hacks.
  - intros Hchg. subst o.
    destruct (post_cases rt net s r)
      as [[msg Hbad]|(body & n & Hr & Hn & ? & ?)].
    { by rewrite Hbad in Hchg. }
    rewrite (post_fanout _ _ _ _ body n) in Hchg |- * by done.
    simpl in *. exists body. split; [done|].
    destruct (hasMajority s _) eqn:Hmaj; [|done].
    split; [|done]. by apply hasMajority_threshold.
Qed.

Lemma post_without_quorum_keeps_minValue_witness :
  let s := {| Vaults := ["a:1"; "b:2"; "c:3"]; minValue := 12 |} in
  let o := post rt_reverse (net_of [] [http.PostResponse 200]) s (POST "13") in
  server o = s
  ∧ http.StatusCode (response o) = http.StatusInternalServerError.
Proof.
  apply (proj1 (post_without_quorum_keeps_minValue rt_reverse
                  (net_of [] [http.PostResponse 200])
                  {| Vaults := ["a:1"; "b:2"; "c:3"]; minValue := 12 |}
                  (POST "13")) "13" 13).
  - reflexivity.
  - vm_compute. reflexivity.
  - lia.
  - simpl. lia.
  - vm_compute. reflexivity.
Defined.

(** C8: a POST whose body cannot be read, is empty, does not parse as an
    integer or parses as a negative integer is answered 400, calls no vault
    and leaves the server as it was. *)
Theorem post_invalid_body_rejected rt net s r :
  http.ReqBody r = None ∨ http.ReqBody r = Some ""
  ∨ (∃ body, http.ReqBody r = Some body
             ∧ ((strconv.Atoi body).2 ≠ None ∨ (strconv.Atoi body).1 < 0)) →
  let o := post rt net s r in
  http.StatusCode (response o) = http.StatusBadRequest
  ∧ calls o = [] ∧ server o = s.
Proof.
  intros [Hr|[Hr|(body & Hr & Hbad)]] o; subst o.
  - by rewrite post_no_body.
  - rewrite (post_invalid _ _ _ _ ""); [done..|]. by left.
  - by rewrite (post_invalid _ _ _ _ body).
Qed.

Lemma post_invalid_body_rejected_witness :
  let s := NewControlServer "a:1,b:2,c:3" in
  let o := post rt_reverse
             (net_of [] [http.PostResponse 200; http.PostResponse 200;
                         http.PostResponse 200]) s (POST "abc") in
  http.StatusCode (response o) = http.StatusBadRequest
  ∧ calls o = [] ∧ server o = s.
Proof.
  apply post_invalid_body_rejected.
  right. right. exists "abc". split; [reflexivity|].
  left. vm_compute. discriminate.
Defined.

(** C9: when a write of v succeeds, the watermark is v; the same write issued
    again is not stopped by the guard (the vaults are called again), succeeds
    if it reaches quorum, and leaves the watermark at v either way. *)
Theorem post_same_value_twice rt1 net1 rt2 net2 s r body v :
  http.ReqBody r = Some body → strconv.Atoi body = (v, None) →
  http.StatusCode (response (post rt1 net1 s r)) = http.StatusOK →
  let s1 := server (post rt1 net1 s r) in
  let o2 := post rt2 net2 s1 r in
  let st2 := postValueToVaults rt2 net2 s1 body in
  minValue s1 = v
  ∧ calls o2 = st2.2
  ∧ http.StatusCode (response o2) ≠ http.StatusBadRequest
  ∧ (hasMajority s1 (Z.of_nat (size st2.1)) = true →
     http.StatusCode (response o2) = http.StatusOK)
  ∧ minValue (server o2) = minValue s1.
Proof.
  intros Hr Hv Hok s1 o2 st2. subst s1 o2 st2.
  destruct (post_cases rt1 net1 s r)
    as [[msg Hbad]|(body' & n & Hr' & Hn & Hpos & Hge)].
  { by rewrite Hbad in Hok. }
  assert (body' = body) as -> by congruence.
  assert (n = v) as -> by congruence.
  rewrite (post_fanout _ _ _ _ body v) in Hok |- * by done. simpl in *.
  destruct (hasMajority s _); [|done]. simpl.
  split; [done|].
  rewrite (post_fanout rt2 net2 (setMinValue s v) r body v)
    by (done || simpl; lia).
  simpl. destruct (hasMajority (setMinValue s v) _); by repeat split.
Qed.

Lemma post_same_value_twice_witness :
  let net := net_of [] [http.PostResponse 200; http.PostResponse 200;
                        http.PostError] in
  let s := NewControlServer "a:1,b:2,c:3" in
  let s1 := server (post rt_reverse net s (POST "12")) in
  let o2 := post rt_reverse net s1 (POST "12") in
  let st2 := postValueToVaults rt_reverse net s1 "12" in
  minValue s1 = 12
  ∧ calls o2 = st2.2
  ∧ http.StatusCode (response o2) ≠ http.StatusBadRequest
  ∧ (hasMajority s1 (Z.of_nat (size st2.1)) = true →
     http.StatusCode (response o2) = http.StatusOK)
  ∧ minValue (server o2) = minValue s1.
Proof.
  apply (post_same_value_twice rt_reverse _ rt_reverse _ _ _ "12" 12).
  - reflexivity.
  - vm_compute. reflexivity.
  - vm_compute. reflexivity.
Defined.

(** ** Duplicate addresses in the vault list *)

Lemma remove_dups_replicate (a : string) n :
  (length (remove_dups (replicate n a)) ≤ 1)%nat.
Proof.
  induction n as [|n IH]; simpl; [lia|].
  case_decide as Hin; [done|].
  destruct n as [|n]; simpl in *; [lia|].
  destruct Hin. left.
Qed.

Lemma goroutines_replicate net s a n v :
  Vaults s = replicate n a →
  (∀ i, (i < n)%nat → vote net (i, a) = Some v) →
  votes net (goroutines s) v = n.
Proof.
  intros Hs Hall. rewrite votes_all.
  - by rewrite goroutines_length, Hs, length_replicate.
  - intros [i vault] Hg. apply list_elem_of_lookup in Hg as [j Hj].
    apply goroutines_lookup in Hj as [Hi Hj]. simpl in *. subst j.
    rewrite Hs in Hj. apply lookup_replicate in Hj as [-> Hlt].
    by apply Hall.
Qed.

(** C10: the keys of the acknowledgement map are the URLs of the entries
    whose vault answered 200, so their number is bounded by the number of
    distinct addresses, while the threshold and the total in the response
    body use the number of entries; the read tally counts one vote per entry.
    With the same address listed n times and every call answered, a write
    gathers at most one acknowledgement and a read gathers n votes. *)
Theorem duplicate_addresses rt `{!RuntimeOk rt} net s body :
  let N := length (Vaults s) in
  let resp := (postValueToVaults rt net s body).1 in
  let counts := (getFanOut rt net s).1 in
  (∀ url, url ∈ resp ↔
          ∃ i vault, Vaults s !! i = Some vault ∧ url = vault_url vault
                     ∧ http_Post net i url body
                       = http.PostResponse http.StatusOK)
  ∧ (size resp ≤ length (remove_dups (Vaults s)))%nat
  ∧ (∀ count, hasMajority s count = true ↔ Z.of_nat N `div` 2 + 1 ≤ count)
  ∧ (∀ r n, http.ReqBody r = Some body → strconv.Atoi body = (n, None) →
            0 ≤ n → minValue s ≤ n →
            http.Body (response (post rt net s r))
            = "Sent updates to " +:+ pretty (size resp) +:+ "/"
              +:+ pretty N +:+ " vaults")
  ∧ (∀ v, counts !! v =
          if decide (votes net (goroutines s) v = 0%nat) then None
          else Some (Z.of_nat (votes net (goroutines s) v)))
  ∧ (∀ a v, Vaults s = replicate N a → (0 < N)%nat →
            (∀ i, (i < N)%nat →
                  ∃ reply, http_Get net i (vault_url a)
                           = http.GetResponse http.StatusOK (Some reply)
                           ∧ strconv.Atoi reply = (v, None)) →
            (size resp ≤ 1)%nat ∧ counts !! v = Some (Z.of_nat N)).
Proof.
  intros N resp counts.
  split; [|split; [|split; [|split; [|split]]]].
  - intros url. split.
    + intros (i & vault & Hi & -> & Hack)%postValueToVaults_elem; [|done].
      exists i, vault. repeat split; [done|].
      unfold acked in Hack. simpl in Hack.
      destruct (http_Post _ _ _ _) as [|status]; [done|].
      by apply bool_decide_eq_true in Hack as ->.
    + intros (i & vault & Hi & -> & Hack).
      apply postValueToVaults_elem; [done|].
      exists i, vault. repeat split; [done|]. unfold acked. simpl.
      rewrite Hack. by apply bool_decide_eq_true.
  - by apply postValueToVaults_size.
  - intros count. apply hasMajority_threshold.
  - intros r n Hr Hn Hpos Hge. by rewrite (post_fanout _ _ _ _ body n).
  - intros v. by apply getFanOut_lookup.
  - intros a v Hs HN Hall. split.
    + pose proof (postValueToVaults_size rt net s body) as Hsize.
      rewrite Hs in Hsize.
      pose proof (remove_dups_replicate a N). fold resp in Hsize. lia.
    + subst counts. rewrite (getFanOut_lookup rt net s v).
      rewrite (goroutines_replicate net s a N v); [|done|].
      * case_decide; [lia|done].
      * intros i Hi. apply vote_Some. simpl. by apply Hall.
Qed.

(** One address listed three times: three good answers give a read its
    majority, and three acknowledgements count as one. *)
Lemma duplicate_addresses_witness :
  let s := NewControlServer "a:1,a:1,a:1" in
  let net := net_of [ok_body "7"; ok_body "7"; ok_body "7"]
               [http.PostResponse 200; http.PostResponse 200;
                http.PostResponse 200] in
  (size (postValueToVaults rt_reverse net s "7").1 ≤ 1)%nat
  ∧ (getFanOut rt_reverse net s).1 !! 7 = Some 3.
Proof.
  apply (proj2 (proj2 (proj2 (proj2 (proj2
    (duplicate_addresses rt_reverse
       (net_of [ok_body "7"; ok_body "7"; ok_body "7"]
          [http.PostResponse 200; http.PostResponse 200;
           http.PostResponse 200])
       (NewControlServer "a:1,a:1,a:1") "7"))))) "a:1" 7).
  - reflexivity.
  - simpl. lia.
  - intros i Hi. exists "7".
    destruct i as [|[|[|i]]]; [by vm_compute..|simpl in Hi; lia].
Defined.

Example same_address_three_times :
  let s := NewControlServer "a:1,a:1,a:1" in
  let net := net_of [ok_body "7"; ok_body "7"; ok_body "7"]
               [http.PostResponse 200; http.PostResponse 200;
                http.PostResponse 200] in
  response (post rt_reverse net s (POST "7"))
  = {| http.StatusCode := 500; http.Body := "Sent updates to 1/3 vaults" |}
  ∧ response (get rt_reverse net s)
    = {| http.StatusCode := 200; http.Body := "7" |}.
Proof. by vm_compute. Qed.

(** ** The examples of the specification *)

Example five_vaults_read_majority :
  response (get rt_reverse
              (net_of [ok_body "7"; ok_body "9"; ok_body "7"; ok_body "9";
                       ok_body "7"] [])
              (NewControlServer "v1:1,v2:2,v3:3,v4:4,v5:5"))
  = {| http.StatusCode := 200; http.Body := "7" |}.
Proof. by vm_compute. Qed.

Example five_vaults_read_split :
  response (get rt_reverse
              (net_of [ok_body "7"; ok_body "9"; http.GetError; ok_body "9";
                       ok_body "7"] [])
              (NewControlServer "v1:1,v2:2,v3:3,v4:4,v5:5"))
  = {| http.StatusCode := 500; http.Body := "-1" |}.
Proof. by vm_compute. Qed.

Example five_vaults_write_then_regress :
  let net := net_of [] [http.PostResponse 200; http.PostResponse 200;
                        http.PostError; http.PostResponse 200;
                        http.PostResponse 200] in
  let o1 := post rt_reverse net (NewControlServer "v1:1,v2:2,v3:3,v4:4,v5:5")
              (POST "12") in
  let o2 := post rt_reverse net (server o1) (POST "10") in
  let o3 := post rt_reverse net (server o1) (POST "abc") in
  response o1
  = {| http.StatusCode := 200; http.Body := "Sent updates to 4/5 vaults" |}
  ∧ minValue (server o1) = 12
  ∧ http.StatusCode (response o2) = 400 ∧ calls o2 = []
  ∧ http.StatusCode (response o3) = 400 ∧ calls o3 = [].
Proof. by vm_compute. Qed.

(** ** Further properties of the control server *)

(** *** The majority test *)

(** X1: [hasMajority] holds exactly for counts above half of the vaults, as
    its comment says (more than 50%): zero is never a majority, exactly half
    is not, and all of at least one vault is. *)
Theorem hasMajority_more_than_half s count :
  let N := Z.of_nat (length (Vaults s)) in
  (hasMajority s count = true ↔ N < 2 * count)
  ∧ hasMajority s 0 = false
  ∧ (2 * count = N → hasMajority s count = false)
  ∧ (1 ≤ N → hasMajority s N = true).
Proof.
  intros N.
  assert (∀ c, hasMajority s c = true ↔ N < 2 * c) as Hhalf.
  { intros c. rewrite hasMajority_threshold. fold N.
    pose proof (Z.mul_succ_div_gt N 2 ltac:(lia)) as Hgt.
    pose proof (Z.mul_div_le N 2 ltac:(lia)) as Hle.
    lia. }
  split; [apply Hhalf|]. split; [|split].
  - apply not_true_iff_false. rewrite Hhalf. lia.
  - intros Heq. apply not_true_iff_false. rewrite Hhalf. lia.
  - intros HN. apply Hhalf. lia.
Qed.

(** *** The vault list *)

Lemma join_commas_cons_char c w ws :
  join_commas (String c w :: ws) = String c (join_commas (w :: ws)).
Proof. by destruct ws. Qed.

(** X2: [NewControlServer] never produces an empty vault list: it has one
    address more than the argument has commas (a single empty address for
    the empty string), no address contains a comma, and joining the
    addresses with commas gives the argument back.  The watermark starts
    at 0. *)
Theorem NewControlServer_vaults vaults :
  let s := NewControlServer vaults in
  length (Vaults s) = S (count_commas vaults)
  ∧ join_commas (Vaults s) = vaults
  ∧ Forall (λ vault, count_commas vault = 0%nat) (Vaults s)
  ∧ minValue s = 0.
Proof.
  simpl. split; [|split; [|split; [|done]]].
  - induction vaults as [|c vaults IH]; [done|].
    simpl. case_bool_decide; simpl; [by rewrite IH|].
    destruct (strings.Split vaults); simpl in *; lia.
  - induction vaults as [|c vaults IH]; [done|].
    cbn [strings.Split]. case_bool_decide as Hc.
    + subst c. pose proof (Split_nonempty vaults) as Hlen.
      destruct (strings.Split vaults) as [|w ws]; [simpl in Hlen; lia|].
      by rewrite <- IH.
    + pose proof (Split_nonempty vaults) as Hlen.
      destruct (strings.Split vaults) as [|w ws]; [simpl in Hlen; lia|].
      by rewrite join_commas_cons_char, IH.
  - induction vaults as [|c vaults IH]; [by repeat constructor|].
    cbn [strings.Split]. case_bool_decide as Hc.
    + by constructor.
    + pose proof (Split_nonempty vaults) as Hlen.
      destruct (strings.Split vaults) as [|w ws]; [simpl in Hlen; lia|].
      inversion IH as [|? ? Hw Hws]; subst. constructor; [|done].
      simpl. by rewrite bool_decide_eq_false_2.
Qed.

(** *** Dispatch and fan-out *)

Lemma goroutines_snd s : (goroutines s).*2 = Vaults s.
Proof.
  apply list_eq. intros i. unfold goroutines.
  rewrite list_lookup_fmap, list_lookup_imap.
  by destruct (Vaults s !! i).
Qed.

Lemma fanout_calls_perm rt `{!RuntimeOk rt} s (f : string → http.Call) :
  (λ g : nat * string, f (vault_url g.2)) <$> go_order rt (goroutines s)
  ≡ₚ (λ vault, f (vault_url vault)) <$> Vaults s.
Proof.
  rewrite (go_order_perm (goroutines s)).
  rewrite <- (goroutines_snd s), <- list_fmap_compose. done.
Qed.

Lemma get_status rt net s :
  http.StatusCode (response (get rt net s)) = http.StatusOK
  ∨ response (get rt net s)
    = {| http.StatusCode := http.StatusInternalServerError;
         http.Body := "-1" |}.
Proof.
  rewrite get_response. simpl. destruct (_ >=? _); [by left|by right].
Qed.

Lemma post_status rt net s r :
  http.StatusCode (response (post rt net s r)) = http.StatusOK
  ∨ http.StatusCode (response (post rt net s r)) = http.StatusBadRequest
  ∨ http.StatusCode (response (post rt net s r))
    = http.StatusInternalServerError.
Proof.
  destruct (post_cases rt net s r) as [[msg ->]|(body & n & Hr & Hn & ? & ?)].
  - right. by left.
  - rewrite (post_fanout _ _ _ _ body n) by done. simpl.
    destruct (hasMajority s _); [by left|by right; right].
Qed.

(** X3: a request is answered 404 exactly when its path is not the root or
    its method is neither GET nor POST; such a request calls no vault and
    leaves the server as it was. *)
Theorem handle_not_found rt net s r :
  let o := handle rt net s r in
  (http.StatusCode (response o) = http.StatusNotFound ↔
   http.Path r ≠ "/"
   ∨ (http.Method r ≠ http.MethodGet ∧ http.Method r ≠ http.MethodPost))
  ∧ (http.StatusCode (response o) = http.StatusNotFound →
     o = {| server := s; response := http.NotFound; calls := [] |}).
Proof.
  simpl. unfold handle.
  case_bool_decide as Hpath; [by split; [split; [left|]|]|].
  case_bool_decide as Hget.
  { destruct (get_status rt net s) as [Hs|Hs]; rewrite Hs;
      (split; [split; [done|]|done]); intros [?|[? _]]; done. }
  case_bool_decide as Hpost.
  { destruct (post_status rt net s r) as [Hs|[Hs|Hs]]; rewrite Hs;
      (split; [split; [done|]|done]); intros [?|[_ ?]]; done. }
  split; [|done]. split; [|done]. intros _. by right.
Qed.

(** X4: a read calls every entry of the vault list exactly once, whatever the
    vaults answer (it does not stop at a majority), and leaves the server as
    it was. *)
Theorem get_calls_every_vault rt `{!RuntimeOk rt} net s :
  server (get rt net s) = s
  ∧ calls (get rt net s)
    ≡ₚ (λ vault, http.CallGet (vault_url vault)) <$> Vaults s.
Proof.
  split; [apply get_server|].
  rewrite get_calls. by apply (fanout_calls_perm rt s http.CallGet).
Qed.

Lemma get_calls_every_vault_witness :
  let o := get rt_reverse (net_of [ok_body "7"; http.GetError] [])
             (NewControlServer "a:1,b:2") in
  server o = NewControlServer "a:1,b:2"
  ∧ calls o ≡ₚ [http.CallGet "http://a:1/"; http.CallGet "http://b:2/"].
Proof.
  exact (get_calls_every_vault rt_reverse
           (net_of [ok_body "7"; http.GetError] [])
           (NewControlServer "a:1,b:2")).
Defined.

(** X5: a write is all or nothing towards the vaults: either it is answered
    400, calls no vault and leaves the server as it was, or it is answered
    200 or 500 and has sent the body of the request, unchanged, to every
    entry of the vault list exactly once. *)
Theorem post_all_or_nothing rt `{!RuntimeOk rt} net s r :
  let o := post rt net s r in
  (http.StatusCode (response o) = http.StatusBadRequest
   ∧ calls o = [] ∧ server o = s)
  ∨ (∃ body, http.ReqBody r = Some body
             ∧ (http.StatusCode (response o) = http.StatusOK
                ∨ http.StatusCode (response o)
                  = http.StatusInternalServerError)
             ∧ calls o
               ≡ₚ (λ vault, http.CallPost (vault_url vault) body)
                  <$> Vaults s).
Proof.
  simpl.
  destruct (post_cases rt net s r) as [[msg ->]|(body & n & Hr & Hn & ? & ?)].
  - by left.
  - right. exists body. split; [done|].
    rewrite (post_fanout _ _ _ _ body n) by done. simpl. split.
    + destruct (hasMajority s _); [by left|by right].
    + rewrite postValueToVaults_log.
      by apply (fanout_calls_perm rt s (λ url, http.CallPost url body)).
Qed.

Lemma post_all_or_nothing_witness :
  let o := post rt_reverse (net_of [] [http.PostResponse 200])
             (NewControlServer "a:1,b:2") (POST "+5") in
  (http.StatusCode (response o) = http.StatusBadRequest
   ∧ calls o = [] ∧ server o = NewControlServer "a:1,b:2")
  ∨ (∃ body, Some "+5" = Some body
             ∧ (http.StatusCode (response o) = http.StatusOK
                ∨ http.StatusCode (response o)
                  = http.StatusInternalServerError)
             ∧ calls o
               ≡ₚ [http.CallPost "http://a:1/" body;
                   http.CallPost "http://b:2/" body]).
Proof.
  exact (post_all_or_nothing rt_reverse (net_of [] [http.PostResponse 200])
           (NewControlServer "a:1,b:2") (POST "+5")).
Defined.

(** *** Independence of the schedule *)

Lemma postValueToVaults_order rt rt' `{!RuntimeOk rt} `{!RuntimeOk rt'}
    net s body :
  (postValueToVaults rt net s body).1 = (postValueToVaults rt' net s body).1.
Proof.
  apply set_eq. intros url.
  by rewrite (postValueToVaults_elem rt), (postValueToVaults_elem rt').
Qed.

Lemma getValueFromVaults_order rt rt' `{!RuntimeOk rt} `{!RuntimeOk rt'}
    net s :
  (getValueFromVaults rt net s).1 = (getValueFromVaults rt' net s).1.
Proof.
  destruct (getValueFromVaults_cases rt net s)
    as [(c & Hres & Hc)|[Hnone ->]].
  - symmetry. eapply getValueFromVaults_majority; [done| |done].
    by rewrite (getFanOut_order rt' rt).
  - symmetry. apply getValueFromVaults_no_majority; [done|].
    intros v c. rewrite (getFanOut_order rt' rt). apply Hnone.
Qed.

Lemma post_badRequest_runtime rt rt' net s r msg :
  post rt net s r = badRequest s msg → post rt' net s r = badRequest s msg.
Proof.
  unfold post. destruct (http.ReqBody r) as [body|]; [|done].
  destruct (strconv.Atoi body) as [n e].
  destruct (_ || _); [done|]. destruct (n <? minValue s); [done|].
  destruct (postValueToVaults rt net s body) as [resp log].
  intros Hbad. exfalso.
  apply (f_equal (λ o, http.StatusCode (response o))) in Hbad.
  by destruct (hasMajority s _).
Qed.

(** X6: what a request is answered and what it does to the server do not
    depend on the order in which the goroutines ran nor on the order in
    which the tally is scanned; only the order of the calls can differ. *)
Theorem handle_schedule_independent rt rt' `{!RuntimeOk rt} `{!RuntimeOk rt'}
    net s r :
  response (handle rt net s r) = response (handle rt' net s r)
  ∧ server (handle rt net s r) = server (handle rt' net s r)
  ∧ calls (handle rt net s r) ≡ₚ calls (handle rt' net s r).
Proof.
  unfold handle. case_bool_decide; [done|].
  case_bool_decide.
  { rewrite !get_response, !get_server, !get_calls. simpl.
    rewrite (getValueFromVaults_order rt rt').
    split; [done|]. split; [done|].
    by rewrite (fanout_calls_perm rt s http.CallGet),
               (fanout_calls_perm rt' s http.CallGet). }
  case_bool_decide; [|done].
  destruct (post_cases rt net s r) as [[msg Hbad]|(body & n & Hr & Hn & ? & ?)].
  - destruct (post_cases rt' net s r)
      as [[msg' Hbad']|(body & n & Hr & Hn & ? & ?)].
    + by rewrite (post_badRequest_runtime rt rt' net s r msg Hbad), Hbad.
    + rewrite (post_fanout rt _ _ _ body n) in Hbad by done.
      by destruct (hasMajority s _).
  - rewrite (post_fanout rt _ _ _ body n), (post_fanout rt' _ _ _ body n)
      by done.
    simpl. rewrite (postValueToVaults_order rt rt').
    split; [done|]. split; [done|].
    rewrite !postValueToVaults_log.
    by rewrite (fanout_calls_perm rt s (λ url, http.CallPost url body)),
               (fanout_calls_perm rt' s (λ url, http.CallPost url body)).
Qed.

Lemma handle_schedule_independent_witness :
  let net := net_of [] [http.PostResponse 200; http.PostResponse 200] in
  let s := NewControlServer "a:1,b:2,c:3" in
  response (handle rt_reverse net s (POST "5"))
  = response (handle rt_program_order net s (POST "5"))
  ∧ server (handle rt_reverse net s (POST "5"))
    = server (handle rt_program_order net s (POST "5"))
  ∧ calls (handle rt_reverse net s (POST "5"))
    ≡ₚ calls (handle rt_program_order net s (POST "5")).
Proof.
  exact (handle_schedule_independent rt_reverse rt_program_order
           (net_of [] [http.PostResponse 200; http.PostResponse 200])
           (NewControlServer "a:1,b:2,c:3") (POST "5")).
Defined.

(** *** What a 200 means *)

(** X7: a read is answered 200 only when some value that is not negative has
    a quorum, and the body is then its decimal form; every other read is
    answered 500 with body "-1". *)
Theorem get_ok_has_quorum rt `{!RuntimeOk rt} net s :
  let N := Z.of_nat (length (Vaults s)) in
  let counts := (getFanOut rt net s).1 in
  let resp := response (get rt net s) in
  (http.StatusCode resp = http.StatusOK →
   ∃ v c, counts !! v = Some c ∧ N `div` 2 + 1 ≤ c ∧ 0 ≤ v
          ∧ http.Body resp = pretty v)
  ∧ (http.StatusCode resp ≠ http.StatusOK →
     resp = {| http.StatusCode := http.StatusInternalServerError;
               http.Body := "-1" |}).
Proof.
  intros N counts resp. subst resp. rewrite get_response. simpl.
  destruct (Z.geb_spec (getValueFromVaults rt net s).1 0) as [Hpos|Hneg].
  - split; [|done]. intros _.
    destruct (getValueFromVaults_cases rt net s)
      as [(c & Hres & Hc)|[_ Hres]].
    + exists (getValueFromVaults rt net s).1, c.
      split; [done|]. split; [by apply hasMajority_threshold|done].
    + rewrite Hres in Hpos. lia.
  - by split.
Qed.

Lemma get_ok_has_quorum_witness :
  let net := net_of [ok_body "-5"] [] in
  let s := NewControlServer "a:1" in
  response (get rt_reverse net s)
  = {| http.StatusCode := http.StatusInternalServerError;
       http.Body := "-1" |}.
Proof.
  apply (proj2 (get_ok_has_quorum rt_reverse (net_of [ok_body "-5"] [])
                  (NewControlServer "a:1"))).
  vm_compute. discriminate.
Defined.

(** X8: a write is answered 200 exactly when its body parses to a value that
    is not negative and not below the watermark and the acknowledgements
    reach the threshold; the server then keeps its vault list and has that
    value as its watermark. *)
Theorem post_ok_iff_committed rt net s r :
  let N := Z.of_nat (length (Vaults s)) in
  let acks body := Z.of_nat (size (postValueToVaults rt net s body).1) in
  let o := post rt net s r in
  (http.StatusCode (response o) = http.StatusOK ↔
   ∃ body n, http.ReqBody r = Some body ∧ strconv.Atoi body = (n, None)
             ∧ 0 ≤ n ∧ minValue s ≤ n ∧ N `div` 2 + 1 ≤ acks body)
  ∧ (∀ body n, http.ReqBody r = Some body → strconv.Atoi body = (n, None) →
               http.StatusCode (response o) = http.StatusOK →
               server o = {| Vaults := Vaults s; minValue := n |}).
Proof.
  intros N acks o. subst o. split.
  - split.
    + intros Hok.
      destruct (post_cases rt net s r)
        as [[msg Hbad]|(body & n & Hr & Hn & ? & ?)].
      { by rewrite Hbad in Hok. }
      exists body, n. repeat (split; [done|]).
      rewrite (post_fanout _ _ _ _ body n) in Hok by done. simpl in Hok.
      apply hasMajority_threshold.
      by destruct (hasMajority s _).
    + intros (body & n & Hr & Hn & ? & ? & Hacks%hasMajority_threshold).
      rewrite (post_fanout _ _ _ _ body n) by done. simpl.
      unfold acks in Hacks. by rewrite Hacks.
  - intros body n Hr Hn Hok.
    destruct (post_cases rt net s r)
      as [[msg Hbad]|(body' & n' & Hr' & Hn' & ? & ?)].
    { by rewrite Hbad in Hok. }
    assert (body' = body) as -> by congruence.
    assert (n' = n) as -> by congruence.
    rewrite (post_fanout _ _ _ _ body n) in Hok |- * by done. simpl in *.
    by destruct (hasMajority s _).
Qed.

Lemma post_ok_iff_committed_witness :
  let net := net_of [] [http.PostResponse 200; http.PostResponse 200] in
  let s := NewControlServer "a:1,b:2,c:3" in
  server (post rt_reverse net s (POST "12"))
  = {| Vaults := ["a:1"; "b:2"; "c:3"]; minValue := 12 |}.
Proof.
  apply (proj2 (post_ok_iff_committed rt_reverse
                  (net_of [] [http.PostResponse 200; http.PostResponse 200])
                  (NewControlServer "a:1,b:2,c:3") (POST "12")) "12" 12).
  - reflexivity.
  - vm_compute. reflexivity.
  - vm_compute. reflexivity.
Defined.

(** *** Counting acknowledgements *)

Lemma postValueToVaults_resp rt `{!RuntimeOk rt} net s body :
  (postValueToVaults rt net s body).1 =
  list_to_set
    (vault_url <$> (filter (λ g, acked net body g = true) (goroutines s)).*2).
Proof.
  apply set_eq. intros url. rewrite (postValueToVaults_elem rt).
  rewrite elem_of_list_to_set, list_elem_of_fmap. split.
  - intros (i & vault & Hi & -> & Hack). exists vault. split; [done|].
    apply list_elem_of_fmap. exists (i, vault). split; [done|].
    apply list_elem_of_filter. split; [done|].
    apply list_elem_of_lookup. exists i. by apply goroutines_lookup.
  - intros (vault & -> & ([i w] & -> & [Hack Hin]%list_elem_of_filter)
                          %list_elem_of_fmap).
    apply list_elem_of_lookup in Hin as [j Hj].
    apply goroutines_lookup in Hj as [<- Hj]. simpl in *.
    exists i, w. done.
Qed.

Lemma vault_url_suffix_inj (v w : string) : v +:+ "/" = w +:+ "/" → v = w.
Proof.
  revert w. induction v as [|c v IH]; intros [|d w]; simpl.
  - done.
  - intros [= <- Hw]. by destruct w.
  - intros [= -> Hv]. by destruct v.
  - intros [= -> Hvw]. f_equal. by apply IH.
Qed.

Global Instance vault_url_inj : Inj (=) (=) vault_url.
Proof.
  intros v w Heq. unfold vault_url in Heq.
  apply (inj (String.app "http://")) in Heq.
  by apply vault_url_suffix_inj.
Qed.



(** X10: the number of acknowledgements a write counts is at most the number
    of list entries whose vault answered 200, which is at most the number of
    entries; when the addresses of the list are pairwise different the two
    numbers are equal. *)
Theorem post_counts_acknowledging_vaults rt `{!RuntimeOk rt} net s body :
  let resp := (postValueToVaults rt net s body).1 in
  let acking := filter (λ g, acked net body g = true) (goroutines s) in
  (size resp ≤ length acking ≤ length (Vaults s))%nat
  ∧ (NoDup (Vaults s) → size resp = length acking).
Proof.
  intros resp acking. subst resp.
  rewrite (postValueToVaults_resp rt). fold acking. split; [split|].
  - etransitivity; [apply size_list_to_set_le|].
    by rewrite !length_fmap.
  - subst acking. etransitivity; [apply length_filter|].
    by rewrite goroutines_length.
  - intros Hnodup. rewrite size_list_to_set; [by rewrite !length_fmap|].
    apply (NoDup_fmap_2 vault_url).
    apply (sublist_NoDup _ (goroutines s).*2).
    + by rewrite goroutines_snd.
    + apply fmap_sublist, sublist_filter.
Qed.

Lemma post_counts_acknowledging_vaults_witness :
  let net := net_of [] [http.PostResponse 200; http.PostError;
                        http.PostResponse 200] in
  let s := NewControlServer "a:1,b:2,c:3" in
  size (postValueToVaults rt_reverse net s "5").1
  = length (filter (λ g, acked net "5" g = true) (goroutines s)).
Proof.
  apply (proj2 (post_counts_acknowledging_vaults rt_reverse
                  (net_of [] [http.PostResponse 200; http.PostError;
                              http.PostResponse 200])
                  (NewControlServer "a:1,b:2,c:3") "5")).
  apply (bool_decide_unpack _). vm_compute. exact I.
Defined.

(** *** Invariants of a run *)

Lemma step_Vaults s e : Vaults (step s e) = Vaults s.
Proof.
  unfold step, handle. repeat case_bool_decide; simpl; try done.
  - by rewrite get_server.
  - apply post_Vaults.
Qed.

(** X11: no request changes the vault list, so the number of vaults and the
    majority threshold stay what they were at startup. *)
Theorem run_keeps_vaults s es :
  Forall (λ s', Vaults s' = Vaults s
                ∧ ∀ count, hasMajority s' count = hasMajority s count)
    (run s es).
Proof.
  assert (∀ s' : ControlServer, Vaults s' = Vaults s →
            ∀ count, hasMajority s' count = hasMajority s count) as Hmaj.
  { intros s' Hs' count. unfold hasMajority. by rewrite Hs'. }
  eapply Forall_impl; [|intros s' Hs'; split; [exact Hs'|by apply Hmaj]].
  clear Hmaj. revert s. induction es as [|e es IH]; intros s; simpl.
  - by constructor.
  - constructor; [done|].
    eapply Forall_impl; [apply IH|]. simpl. intros s' ->. apply step_Vaults.
Qed.

Lemma post_minValue_range rt net s r :
  0 ≤ minValue s < 2 ^ 63 →
  0 ≤ minValue (server (post rt net s r)) < 2 ^ 63.
Proof.
  intros Hs.
  destruct (post_cases rt net s r) as [[msg ->]|(body & n & Hr & Hn & ? & ?)].
  - done.
  - rewrite (post_fanout _ _ _ _ body n) by done. simpl.
    destruct (hasMajority s _); [|done]. simpl.
    pose proof (Atoi_range body n Hn). lia.
Qed.

Lemma step_minValue_range s e :
  0 ≤ minValue s < 2 ^ 63 → 0 ≤ minValue (step s e) < 2 ^ 63.
Proof.
  intros Hs. unfold step, handle. repeat case_bool_decide; simpl; try done.
  - by rewrite get_server.
  - by apply post_minValue_range.
Qed.

(** X12: from startup on, the watermark is never negative and always fits in
    an [int]. *)
Theorem minValue_in_range vaults es :
  Forall (λ s, 0 ≤ minValue s < 2 ^ 63) (run (NewControlServer vaults) es).
Proof.
  assert (0 ≤ minValue (NewControlServer vaults) < 2 ^ 63) as Hinit
    by (simpl; lia).
  revert Hinit. generalize (NewControlServer vaults).
  induction es as [|e es IH]; intros s Hs; simpl.
  - by constructor.
  - constructor; [done|]. by apply IH, step_minValue_range.
Qed.

Lemma post_ok_minValue rt net s r body n :
  http.ReqBody r = Some body → strconv.Atoi body = (n, None) →
  http.StatusCode (response (post rt net s r)) = http.StatusOK →
  0 ≤ n
  ∧ hasMajority s (Z.of_nat (size (postValueToVaults rt net s body).1)) = true
  ∧ server (post rt net s r) = setMinValue s n.
Proof.
  intros Hr Hn Hok.
  destruct (post_cases rt net s r)
    as [[msg Hbad]|(body' & n' & Hr' & Hn' & ? & ?)].
  { by rewrite Hbad in Hok. }
  assert (body' = body) as -> by congruence.
  assert (n' = n) as -> by congruence.
  rewrite (post_fanout _ _ _ _ body n) in Hok |- * by done. simpl in *.
  by destruct (hasMajority s _).
Qed.



(** *** A write followed by a read *)

Lemma length_filter_impl {A} (P Q : A → Prop)
    `{!∀ x, Decision (P x)} `{!∀ x, Decision (Q x)} (l : list A) :
  (∀ x, x ∈ l → P x → Q x) → (length (filter P l) ≤ length (filter Q l))%nat.
Proof.
  induction l as [|x l IH]; intros Himp; [done|].
  rewrite !filter_cons.
  assert (length (filter P l) ≤ length (filter Q l))%nat as Hl.
  { apply IH. intros y Hy. apply Himp. by right. }
  destruct (decide (P x)) as [HP|].
  - rewrite decide_True by (apply Himp; [left|done]). simpl. lia.
  - destruct (decide (Q x)); simpl; lia.
Qed.

(** X14: when a write of n has been answered 200 and every list entry whose
    vault acknowledged it then answers a read with a body that parses to n,
    the read is answered 200 with the decimal form of n. *)
Theorem read_after_write rt1 `{!RuntimeOk rt1} net1 rt2 `{!RuntimeOk rt2} net2
    s r body n :
  http.ReqBody r = Some body → strconv.Atoi body = (n, None) →
  http.StatusCode (response (post rt1 net1 s r)) = http.StatusOK →
  (∀ i vault, Vaults s !! i = Some vault →
     http_Post net1 i (vault_url vault) body
     = http.PostResponse http.StatusOK →
     ∃ reply, http_Get net2 i (vault_url vault)
              = http.GetResponse http.StatusOK (Some reply)
              ∧ strconv.Atoi reply = (n, None)) →
  response (get rt2 net2 (server (post rt1 net1 s r)))
  = {| http.StatusCode := http.StatusOK; http.Body := pretty n |}.
Proof.
  intros Hr Hn Hok Hecho.
  destruct (post_ok_minValue _ _ _ _ _ _ Hr Hn Hok) as (Hpos & Hmaj & ->).
  set (s1 := setMinValue s n).
  assert (goroutines s1 = goroutines s) as Hgs by done.
  assert (∀ c, hasMajority s1 c = hasMajority s c) as Hsame by done.
  set (acking := filter (λ g, acked net1 body g = true) (goroutines s)).
  assert (size (postValueToVaults rt1 net1 s body).1 ≤ length acking)%nat
    as Hsize.
  { rewrite (postValueToVaults_resp rt1).
    etransitivity; [apply size_list_to_set_le|]. by rewrite !length_fmap. }
  assert (length acking ≤ votes net2 (goroutines s) n)%nat as Hvotes.
  { apply length_filter_impl. intros [i vault] Hin Hack.
    apply list_elem_of_lookup in Hin as [j Hj].
    apply goroutines_lookup in Hj as [Hi Hj]. simpl in *. subst j.
    apply vote_Some. simpl. apply Hecho; [done|].
    unfold acked in Hack. simpl in Hack.
    destruct (http_Post _ _ _ _) as [|status]; [done|].
    by apply bool_decide_eq_true in Hack as ->. }
  apply hasMajority_threshold in Hmaj.
  assert (Z.of_nat (length (Vaults s)) `div` 2 + 1
          ≤ Z.of_nat (votes net2 (goroutines s) n)) as Hthr by lia.
  pose proof (Z.div_pos (Z.of_nat (length (Vaults s))) 2 ltac:(lia)
                ltac:(lia)) as Hdiv.
  rewrite get_response. simpl.
  rewrite (getValueFromVaults_reached rt2 net2 s1 n
             (Z.of_nat (votes net2 (goroutines s) n))).
  - destruct (Z.geb_spec n 0); [done|lia].
  - rewrite (getFanOut_lookup rt2 net2 s1 n), Hgs.
    case_decide; [lia|done].
  - done.
Qed.

Lemma read_after_write_witness :
  let net := net_of [ok_body "12"; ok_body "12"; http.GetError]
               [http.PostResponse 200; http.PostResponse 200;
                http.PostError] in
  let s := NewControlServer "a:1,b:2,c:3" in
  response (get rt_program_order net
              (server (post rt_reverse net s (POST "+12"))))
  = {| http.StatusCode := http.StatusOK; http.Body := "12" |}.
Proof.
  apply (read_after_write rt_reverse
           (net_of [ok_body "12"; ok_body "12"; http.GetError]
              [http.PostResponse 200; http.PostResponse 200;
               http.PostError])
           rt_program_order
           (net_of [ok_body "12"; ok_body "12"; http.GetError]
              [http.PostResponse 200; http.PostResponse 200;
               http.PostError])
           (NewControlServer "a:1,b:2,c:3") (POST "+12") "+12" 12).
  - reflexivity.
  - vm_compute. reflexivity.
  - vm_compute. reflexivity.
  - intros [|[|[|i]]] vault Hi Hack; simpl in *; try discriminate;
      exists "12"; split; reflexivity.
Defined.

(** *** What reaches the vaults *)

Lemma ParseUint_loop_all_digits s n :
  (strconv.ParseUint_loop s n).2 = None → all_digits s = true.
Proof.
  revert n. induction s as [|c s IH]; intros n; [done|].
  cbn [strconv.ParseUint_loop all_digits].
  destruct (strconv.is_digit c); [|done].
  destruct (_ >=? _); [done|]. cbv zeta.
  destruct (_ >? _); [done|]. apply IH.
Qed.

Lemma ParseUint_loop_range s n un :
  strconv.ParseUint_loop s n = (un, Some strconv.ErrRange) →
  un = strconv.maxUint64.
Proof.
  revert n. induction s as [|c s IH]; intros n; [done|].
  cbn [strconv.ParseUint_loop].
  destruct (strconv.is_digit c); [|done].
  destruct (_ >=? _); [by intros [= <-]|]. cbv zeta.
  destruct (_ >? _); [by intros [= <-]|]. apply IH.
Qed.

(** What [Atoi] accepts is an optional sign followed by digits. *)
Lemma Atoi_is_decimal body n :
  strconv.Atoi body = (n, None) → is_decimal body = true.
Proof.
  unfold strconv.Atoi, strconv.ParseInt, is_decimal.
  destruct body as [|c rest]; [done|].
  cbv zeta.
  match goal with
  | |- context [strconv.ParseUint ?d] => set (digits := d)
  end.
  destruct (strconv.ParseUint digits) as [un e] eqn:Hun.
  assert (e = None → match digits with
                     | EmptyString => false
                     | String _ _ => all_digits digits
                     end = true) as Hdigits.
  { intros ->. unfold strconv.ParseUint in Hun.
    destruct digits as [|d digits']; [done|].
    apply (ParseUint_loop_all_digits _ 0). by rewrite Hun. }
  destruct e as [[]|]; [done| |by auto].
  assert (un = strconv.maxUint64) as ->.
  { unfold strconv.ParseUint in Hun.
    destruct digits; [done|]. by eapply ParseUint_loop_range. }
  by destruct (bool_decide (c = "-"%char)).
Qed.

(** X15: every call a write issues is a POST that carries the body of the
    request, and that body is an optional sign followed by digits whose value
    is not negative and not below the watermark; nothing else is ever sent
    to a vault by a write. *)
Theorem post_sends_valid_body rt net s r c :
  c ∈ calls (post rt net s r) →
  ∃ body n, http.ReqBody r = Some body ∧ call_body c = Some body
            ∧ is_decimal body = true ∧ strconv.Atoi body = (n, None)
            ∧ 0 ≤ n ∧ minValue s ≤ n.
Proof.
  intros Hc.
  destruct (post_cases rt net s r) as [[msg Hbad]|(body & n & Hr & Hn & ? & ?)].
  { rewrite Hbad in Hc. by apply elem_of_nil in Hc. }
  exists body, n.
  rewrite (post_fanout _ _ _ _ body n) in Hc by done. simpl in Hc.
  rewrite postValueToVaults_log in Hc.
  apply list_elem_of_fmap in Hc as (g & -> & _).
  repeat (split; [done|]). split; [by eapply Atoi_is_decimal|done].
Qed.

Lemma post_sends_valid_body_witness :
  ∃ body n, Some "+7" = Some body
            ∧ call_body (http.CallPost "http://a:1/" "+7") = Some body
            ∧ is_decimal body = true ∧ strconv.Atoi body = (n, None)
            ∧ 0 ≤ n ∧ 0 ≤ n.
Proof.
  apply (post_sends_valid_body rt_program_order (net_of [] [])
           (NewControlServer "a:1") (POST "+7")
           (http.CallPost "http://a:1/" "+7")).
  vm_compute. left.
Defined.

(** *** The votes of a tally *)

Lemma total_votes_incr (counts : gmap Z Z) v :
  total_votes (<[v := default 0 (counts !! v) + 1]> counts)
  = total_votes counts + 1.
Proof.
  unfold total_votes.
  destruct (counts !! v) as [c|] eqn:Hv; simpl.
  - rewrite <- (insert_delete_eq counts).
    rewrite map_fold_insert_L; [|intros; lia|apply lookup_delete_eq].
    rewrite (map_fold_delete_L _ _ v c counts); [lia|intros; lia|done].
  - rewrite map_fold_insert_L; [lia|intros; lia|done].
Qed.

Lemma fold_get_total net gs counts log :
  total_votes (foldl (getValueFromVault net) (counts, log) gs).1
  = total_votes counts
    + Z.of_nat (length (filter (λ g, answered net g = true) gs)).
Proof.
  revert counts log. induction gs as [|g gs IH]; intros counts log.
  - simpl. lia.
  - cbn [foldl]. rewrite getValueFromVault_vote, IH, filter_cons.
    assert (answered net g = bool_decide (is_Some (vote net g))) as Hans
      by done.
    case_decide as Ha; rewrite Hans in Ha;
      destruct (vote net g) as [v|] eqn:Hv.
    + rewrite total_votes_incr. cbn [length]. lia.
    + by apply bool_decide_eq_true in Ha as [? [=]].
    + destruct Ha. by apply bool_decide_eq_true.
    + done.
Qed.

(** X16: the counts of a tally add up to the number of list entries whose
    vault gave a countable answer, so to at most the number of vaults; each
    count lies between 1 and the number of vaults and each key fits in an
    [int], so [count + 1] never wraps. *)
Theorem tally_counts_answers rt `{!RuntimeOk rt} net s :
  let N := Z.of_nat (length (Vaults s)) in
  let counts := (getFanOut rt net s).1 in
  total_votes counts
  = Z.of_nat (length (filter (λ g, answered net g = true) (goroutines s)))
  ∧ total_votes counts ≤ N
  ∧ ∀ v c, counts !! v = Some c → 1 ≤ c ≤ N ∧ - 2 ^ 63 ≤ v < 2 ^ 63.
Proof.
  intros N counts.
  assert (total_votes counts
          = Z.of_nat (length (filter (λ g, answered net g = true)
                                (goroutines s)))) as Htotal.
  { subst counts. unfold getFanOut. rewrite fold_get_total.
    rewrite (go_order_perm (goroutines s)).
    unfold total_votes. by rewrite map_fold_empty. }
  split; [done|]. split.
  - rewrite Htotal. subst N. rewrite <- goroutines_length.
    apply inj_le, length_filter.
  - intros v c Hv. split.
    + by eapply getFanOut_count_bound.
    + by eapply getFanOut_key_range.
Qed.

Lemma tally_counts_answers_witness :
  let net := net_of [ok_body "7"; http.GetError; ok_body "9"] [] in
  let s := NewControlServer "a:1,b:2,c:3" in
  total_votes (getFanOut rt_reverse net s).1 ≤ 3.
Proof.
  exact (proj1 (proj2 (tally_counts_answers rt_reverse
                         (net_of [ok_body "7"; http.GetError; ok_body "9"] [])
                         (NewControlServer "a:1,b:2,c:3")))).
Defined.

(** *** The diagnostic of a read without quorum *)

Lemma rangeCounts_largest s entries maxVal maxVal' :
  rangeCounts s entries maxVal = inr maxVal' →
  maxVal ≤ maxVal'
  ∧ (∀ v c, (v, c) ∈ entries → c ≤ maxVal')
  ∧ (maxVal' = maxVal ∨ ∃ v, (v, maxVal') ∈ entries).
Proof.
  revert maxVal. induction entries as [|[w c] entries IH]; intros maxVal.
  - intros [= ->]. split; [done|]. split; [|by left].
    intros v c Hin. by apply elem_of_nil in Hin.
  - simpl. destruct (hasMajority s c); [done|].
    intros (Hle & Hall & Hsome)%IH.
    assert (maxVal ≤ maxVal' ∧ c ≤ maxVal') as [??]
      by (destruct (Z.gtb_spec c maxVal); lia).
    split; [done|]. split.
    + intros v c' [[= -> ->]|Hin]%elem_of_cons; [done|by eapply Hall].
    + destruct Hsome as [->|[v Hv]].
      * destruct (Z.gtb_spec c maxVal); [|by left].
        right. exists w. left.
      * right. exists v. by right.
Qed.

(** X17: when the scan of a tally finds no majority, the number it reports
    is the largest count of the tally: no count exceeds it, it is 0 or the
    count of some value, and it is below the threshold. *)
Theorem no_quorum_reports_largest_count s entries maxVal :
  rangeCounts s entries 0 = inr maxVal →
  (∀ v c, (v, c) ∈ entries → c ≤ maxVal ∧ hasMajority s c = false)
  ∧ 0 ≤ maxVal
  ∧ (maxVal = 0 ∨ ∃ v, (v, maxVal) ∈ entries)
  ∧ hasMajority s maxVal = false.
Proof.
  intros Hscan.
  destruct (rangeCounts_largest _ _ _ _ Hscan) as (Hpos & Hall & Hsome).
  pose proof (rangeCounts_inr _ _ _ _ Hscan) as Hnone.
  split; [|split; [done|split]].
  - intros v c Hin. split; [by eapply Hall|by eapply Hnone].
  - destruct Hsome as [->|?]; [by left|by right].
  - destruct Hsome as [->|[v Hv]]; [|by eapply Hnone].
    apply hasMajority_false.
    pose proof (Z.div_pos (Z.of_nat (length (Vaults s))) 2). lia.
Qed.

Lemma no_quorum_reports_largest_count_witness :
  let s := NewControlServer "a:1,b:2,c:3,d:4,e:5" in
  (∀ v c, (v, c) ∈ [(7, 2); (9, 2)] → c ≤ 2 ∧ hasMajority s c = false)
  ∧ 0 ≤ 2
  ∧ (2 = 0 ∨ ∃ v, (v, 2) ∈ [(7, 2); (9, 2)])
  ∧ hasMajority s 2 = false.
Proof.
  apply (no_quorum_reports_largest_count
           (NewControlServer "a:1,b:2,c:3,d:4,e:5") [(7, 2); (9, 2)] 2).
  vm_compute. reflexivity.
Defined.
